(** * my-badges: the GitHub provider and the snapshot loader

    A shallow embedding of [src/providers/gh/index.ts] (read, upsert, upload,
    getBadges, generateReadme) and of the update entry point (normalizeOpts,
    getData, getSnapshot), with the properties the specification states
    about them. *)

From Stdlib Require Import ZArith Ascii String Lia.
From stdpp Require Import base option list gmap strings pretty.

Local Open Scope Z_scope.

(** ** JavaScript strings

    A string is a finite sequence of code units.  [indexOf], [slice] and
    indexing follow ECMAScript: [indexOf] answers [-1] when the pattern
    does not occur, [slice] clamps its bounds and counts negative ones from
    the end, and indexing out of range yields [undefined] ([None]). *)
Module JsString.

Definition nl_char : ascii := ascii_of_nat 10.
Definition nl : string := String nl_char EmptyString.
Definition dq : string := String (ascii_of_nat 34) EmptyString.

Definition len (s : string) : Z := Z.of_nat (String.length s).

Fixpoint str_take (n : nat) (s : string) : string :=
  match n, s with
  | S n', String c s' => String c (str_take n' s')
  | _, _ => EmptyString
  end.

Fixpoint str_drop (n : nat) (s : string) : string :=
  match n, s with
  | S n', String _ s' => str_drop n' s'
  | _, _ => s
  end.

Fixpoint startsWith (p s : string) : bool :=
  match p, s with
  | EmptyString, _ => true
  | String a p', String b s' => if ascii_dec a b then startsWith p' s' else false
  | String _ _, EmptyString => false
  end.

(** [s.indexOf(p)], scanning from the left; [i] is the offset of [s]
    in the string the search started in. *)
Fixpoint indexOf_from (s p : string) (i : Z) : Z :=
  if startsWith p s then i
  else match s with
       | EmptyString => -1
       | String _ s' => indexOf_from s' p (i + 1)
       end.

Definition indexOf (s p : string) : Z := indexOf_from s p 0.

(** Relative index of [slice]: negative counts from the end, the result
    is clamped to [0 .. len]. *)
Definition clamp (n i : Z) : Z :=
  if i <? 0 then Z.max (n + i) 0 else Z.min i n.

Definition slice (s : string) (from to : Z) : string :=
  let a := clamp (len s) from in
  let b := clamp (len s) to in
  str_take (Z.to_nat (b - a)) (str_drop (Z.to_nat a) s).

(** [s.slice(from)] *)
Definition slice_from (s : string) (from : Z) : string :=
  slice s from (len s).

(** [s[i]] *)
Definition charAt (s : string) (i : Z) : option ascii :=
  if i <? 0 then None else String.get (Z.to_nat i) s.

(** [xs.join(sep)] *)
Fixpoint join (sep : string) (xs : list string) : string :=
  match xs with
  | [] => EmptyString
  | [x] => x
  | x :: rest => x +:+ sep +:+ join sep rest
  end.

(** [s.split(sep)] for a separator of one code unit: the pieces between
    the separators, at least one piece. *)
Fixpoint split (sep : ascii) (s : string) : list string :=
  match s with
  | EmptyString => [EmptyString]
  | String c s' =>
      if ascii_dec c sep then EmptyString :: split sep s'
      else match split sep s' with
           | piece :: rest => String c piece :: rest
           | [] => [String c EmptyString]
           end
  end.

(** [s.split(sep, limit)] *)
Definition split_limit (sep : ascii) (limit : nat) (s : string) : list string :=
  take limit (split sep s).

(** Truthiness of a string that may be [undefined]. *)
Definition truthy (s : option string) : bool :=
  match s with
  | Some (String _ _) => true
  | _ => false
  end.

(** [a || b] on such strings *)
Definition or_else (a b : option string) : option string :=
  if truthy a then a else b.

(** [a || b] when [b] is a string *)
Definition or_string (a : option string) (b : string) : string :=
  match a with
  | Some (String _ _ as s) => s
  | _ => b
  end.

(** [p] occurs in [s] as a contiguous substring. *)
Definition occurs (p s : string) : Prop :=
  ∃ a b, s = a +:+ p +:+ b.

End JsString.
Import JsString.

(** ** JavaScript values

    What [JSON.parse] builds and the provider then mutates.  An array can
    carry named properties next to its items ([userBadges.sha]); property
    lists keep insertion order and hold each key once. *)
#[warnings="-register-all"] Inductive jsval :=
| JUndefined
| JNull
| JBool (b : bool)
| JNumber (n : Z)
| JString (s : string)
| JArray (items : list jsval) (props : list (string * jsval))
| JObject (props : list (string * jsval)).

Inductive error :=
| RequestError (response_status : option Z)
| SyntaxError
| TypeError
| Error (message : string).

Fixpoint get_prop (props : list (string * jsval)) (key : string) : jsval :=
  match props with
  | [] => JUndefined
  | (k, v) :: rest => if String.eqb k key then v else get_prop rest key
  end.

Fixpoint set_prop (props : list (string * jsval)) (key : string) (v : jsval)
    : list (string * jsval) :=
  match props with
  | [] => [(key, v)]
  | (k, w) :: rest =>
      if String.eqb k key then (k, v) :: rest else (k, w) :: set_prop rest key v
  end.

Definition is_undefined (v : jsval) : bool :=
  match v with JUndefined => true | _ => false end.

(** [v.key], which throws on [null] and [undefined] and finds nothing on
    a primitive for the keys used here. *)
Definition read_prop (v : jsval) (key : string) : error + jsval :=
  match v with
  | JUndefined | JNull => inl TypeError
  | JArray _ props | JObject props => inr (get_prop props key)
  | JBool _ | JNumber _ | JString _ => inr JUndefined
  end.

(** [v.key = x] in strict mode (every module of the package is an ES
    module): a [TypeError] unless [v] is an object. *)
Definition write_prop (v : jsval) (key : string) (x : jsval) : error + jsval :=
  match v with
  | JArray items props => inr (JArray items (set_prop props key x))
  | JObject props => inr (JObject (set_prop props key x))
  | _ => inl TypeError
  end.

Definition js_of_string (s : option string) : jsval :=
  match s with Some x => JString x | None => JUndefined end.

(** [number | string]; the numbers that matter here are integers. *)
Inductive Size :=
| SizeNumber (n : Z)
| SizeString (s : string).

(** ** Names imported from modules outside [src/]

    [utils.ts], [constants.ts], the built-ins of the runtime and node's
    [path] module.  The embedding is parametric in them. *)
Class Imports := {
  quoteAttr : string → string;
  encodeBase64 : string → string;
  decodeBase64 : string → string;
  MY_BADGES_JSON_PATH : string;
  (** [JSON.parse]; [None] is a thrown [SyntaxError] *)
  JSON_parse : string → option jsval;
  (** [JSON.stringify(v, null, 2)] *)
  JSON_stringify : jsval → string;
  path_resolve : string → string → string;
  path_join : string → string → string;
  process_cwd : string;
  (** the text of [parseInt(size + '')] *)
  widthText : Size → string;
}.

(** ** The README templater *)

(** The published badge record ([Badge] of [badges.ts]), as the templater
    reads it. *)
Record Badge := mkBadge {
  badge_id : string;
  badge_tier : Z;
  badge_desc : string;
  badge_body : string;
  badge_image : string;
}.

Definition startString : string := "<!-- my-badges start -->".
Definition endString : string := "<!-- my-badges end -->".

Definition sectionHeader : string :=
  "<h4><a href=" +:+ dq +:+ "https://github.com/my-badges/my-badges" +:+ dq
  +:+ ">My Badges</a></h4>" +:+ nl +:+ nl.

(** The callback of [badges.map] *)
Definition badgeHtml `{Imports} (size : Size) (badge : Badge) : string :=
  let desc := quoteAttr (badge_desc badge) in
  "<a href=" +:+ dq +:+ "my-badges/" +:+ badge_id badge +:+ ".md" +:+ dq
  +:+ "><img src=" +:+ dq +:+ badge_image badge +:+ dq
  +:+ " alt=" +:+ dq +:+ desc +:+ dq
  +:+ " title=" +:+ dq +:+ desc +:+ dq
  +:+ " width=" +:+ dq +:+ widthText size +:+ dq +:+ "></a>".

Definition is_newline (c : option ascii) : bool :=
  match c with
  | Some a => if ascii_dec a nl_char then true else false
  | None => false
  end.

(** [content[end + endString.length + 1] !== '\n'] *)
Definition needToAddNewLine (content : string) (end_ : Z) : bool :=
  negb (is_newline (charAt content (end_ + len endString + 1))).

Definition generateReadme `{Imports} (readme : string) (badges : list Badge)
    (size : Size) : string :=
  let content := readme in
  let start := indexOf content startString in
  let end_ := indexOf content endString in
  let needNl := needToAddNewLine content end_ in
  if negb (start =? -1) && negb (end_ =? -1) then
    let content :=
      slice content 0 start +:+ slice_from content (end_ + len endString) in
    let badgesHtml := join nl (map (badgeHtml size) badges) in
    slice content 0 start
    +:+ (startString +:+ nl)
    +:+ sectionHeader
    +:+ badgesHtml
    +:+ (nl +:+ endString)
    +:+ (if needNl then nl else EmptyString)
    +:+ slice_from content start
  else content.

(** The text that stands between the preserved prefix and the preserved
    suffix of a rewritten document; [trailing] says whether a newline
    follows the new end marker. *)
Definition managedSection `{Imports} (badges : list Badge) (size : Size)
    (trailing : bool) : string :=
  (startString +:+ nl)
  +:+ sectionHeader
  +:+ join nl (map (badgeHtml size) badges)
  +:+ (nl +:+ endString)
  +:+ (if trailing then nl else EmptyString).

(** ** Effects

    Asynchronous code is embedded as a tree of calls to the outside world:
    the local file system, the REST client and the data collector.  A call
    is answered with a value or with a thrown error; [try_catch] is the
    [try { } catch (e) { }] block.  Console output is left out. *)

Record contents_data := mkData {
  data_content : string;
  data_sha : string;
  data_path : string;
}.

Inductive endpoint :=
| ReadmeEndpoint     (* GET /repos/{owner}/{repo}/readme *)
| ContentsEndpoint.  (* GET /repos/{owner}/{repo}/contents/{path} *)

Record get_request := mkGet {
  get_endpoint : endpoint;
  get_token : option string;
  get_owner : option string;
  get_repo : option string;
  get_path : string;
}.

(** PUT /repos/{owner}/{repo}/contents/{path} *)
Record put_request := mkPut {
  put_token : option string;
  put_owner : option string;
  put_repo : option string;
  put_path : string;
  put_message : string;
  put_committer_name : string;
  put_committer_email : string;
  put_content : string;
  put_sha : option string;
}.

Inductive cmd :=
| FsReadFile (file : string)
| FsExistsSync (file : string)
| WriteFile (file content : string)
| OctokitGet (r : get_request)
| OctokitPut (r : put_request)
| Collect (token : option string) (user : string).

Definition response (c : cmd) : Type :=
  match c with
  | FsReadFile _ => string
  | FsExistsSync _ => bool
  | WriteFile _ _ => unit
  | OctokitGet _ => contents_data
  | OctokitPut _ => unit
  | Collect _ _ => jsval
  end.

Inductive prog (A : Type) : Type :=
| Ret (a : A)
| Throw (e : error)
| Call (c : cmd) (k : error + response c → prog A).
Arguments Ret {A} a.
Arguments Throw {A} e.
Arguments Call {A} c k.

Fixpoint bind {A B} (p : prog A) (f : A → prog B) : prog B :=
  match p with
  | Ret a => f a
  | Throw e => Throw e
  | Call c k => Call c (λ r, bind (k r) f)
  end.

Fixpoint try_catch {A} (p : prog A) (handler : error → prog A) : prog A :=
  match p with
  | Ret a => Ret a
  | Throw e => handler e
  | Call c k => Call c (λ r, try_catch (k r) handler)
  end.

(** An awaited call: a failure is thrown at the call site. *)
Definition call (c : cmd) : prog (response c) :=
  Call c (λ r, match r with inl e => Throw e | inr x => Ret x end).

(** A pure step that can throw. *)
Definition lift {A} (r : error + A) : prog A :=
  match r with inl e => Throw e | inr x => Ret x end.

#[global] Instance prog_ret : MRet prog := λ A a, Ret a.
#[global] Instance prog_bind : MBind prog := λ A B f p, bind p f.

(** The outside world as a transition function on a state [W], and the
    run of a program against it: the outcome, the final state and the
    calls issued, in order. *)
Definition handler (W : Type) : Type :=
  ∀ c : cmd, W → (error + response c) * W.

Record outcome (W A : Type) := mkOutcome {
  result : error + A;
  final : W;
  trace : list cmd;
}.
Arguments mkOutcome {W A} result final trace.
Arguments result {W A} o.
Arguments final {W A} o.
Arguments trace {W A} o.

Fixpoint run {W A} (h : handler W) (p : prog A) (w : W) : outcome W A :=
  match p with
  | Ret a => mkOutcome (inr a) w []
  | Throw e => mkOutcome (inl e) w []
  | Call c k =>
      let '(r, w') := h c w in
      let o := run h (k r) w' in
      mkOutcome (result o) (final o) (c :: trace o)
  end.

Definition is_write (c : cmd) : bool :=
  match c with
  | WriteFile _ _ | OctokitPut _ => true
  | _ => false
  end.

(** The writes a run issued. *)
Definition writes {W A} (o : outcome W A) : list cmd :=
  filter (λ c, is_write c = true) (trace o).

(** ** The GitHub provider: read, upload, upsert *)

(** A string that may carry [sha] and [path] properties
    ([string & { sha?: string; path?: string }]). *)
Record Content := mkContent {
  text : string;
  sha : option string;
  path : option string;
}.

Definition plain (s : string) : Content := mkContent s None None.

Record UpsertOpts := mkOpts {
  token : option string;
  content : Content;
  owner : option string;
  repo : option string;
  contentPath : string;
  dryrun : bool;
  cwd : option string;
  committerName : string;
  committerEmail : string;
}.

Definition with_content (opts : UpsertOpts) (c : Content) : UpsertOpts :=
  mkOpts (token opts) c (owner opts) (repo opts) (contentPath opts)
         (dryrun opts) (cwd opts) (committerName opts) (committerEmail opts).

(** [path.resolve] and [path.join] reject an argument that is not a
    string. *)
Definition resolve_in `{Imports} (dir : option string) (p : string)
    : error + string :=
  match dir with
  | Some d => inr (path_resolve d p)
  | None => inl TypeError
  end.

Definition join_in `{Imports} (dir : option string) (p : string)
    : error + string :=
  match dir with
  | Some d => inr (path_join d p)
  | None => inl TypeError
  end.

(** The request [read] sends when it is not a dry run. *)
Definition read_request (opts : UpsertOpts) : get_request :=
  mkGet (if String.eqb (contentPath opts) "readme.md"
         then ReadmeEndpoint else ContentsEndpoint)
        (token opts) (owner opts) (repo opts) (contentPath opts).

Definition read `{Imports} (opts : UpsertOpts) : prog Content :=
  try_catch
    (if dryrun opts then
       file ← lift (resolve_in (cwd opts) (contentPath opts));
       s ← call (FsReadFile file);
       mret (plain s)
     else
       d ← call (OctokitGet (read_request opts));
       mret (mkContent (decodeBase64 (data_content d))
                       (Some (data_sha d)) (Some (data_path d))))
    (λ e, mret (plain EmptyString)).

(** The request [upload] sends when it is not a dry run. *)
Definition upload_request `{Imports} (opts : UpsertOpts) : put_request :=
  let c := content opts in
  mkPut (token opts) (owner opts) (repo opts)
        (or_string (path c) (contentPath opts))
        ("chore: " +:+ contentPath opts +:+ " "
         +:+ (if truthy (sha c) then "updated" else "added"))
        (committerName opts) (committerEmail opts)
        (encodeBase64 (text c))
        (sha c).

Definition upload `{Imports} (opts : UpsertOpts) : prog unit :=
  if dryrun opts then
    filepath ← lift (join_in (cwd opts) (contentPath opts));
    call (WriteFile filepath (text (content opts)))
  else
    call (OctokitPut (upload_request opts)).

Definition upsert `{Imports} (opts : UpsertOpts) : prog unit :=
  let content := content opts in
  _content ← read opts;
  if String.eqb (text content) (text _content) then mret tt
  else
    upload (with_content opts
              (mkContent (text content) (sha _content) (path _content))).

(** What [read] hands back, by cases on the answer of the world. *)
Definition read_answer `{Imports} {W} (h : handler W) (opts : UpsertOpts)
    (w : W) : Content :=
  if dryrun opts then
    match cwd opts with
    | None => plain EmptyString
    | Some d =>
        match (h (FsReadFile (path_resolve d (contentPath opts))) w).1 with
        | inl _ => plain EmptyString
        | inr s => plain s
        end
    end
  else
    match (h (OctokitGet (read_request opts)) w).1 with
    | inl _ => plain EmptyString
    | inr d => mkContent (decodeBase64 (data_content d))
                         (Some (data_sha d)) (Some (data_path d))
    end.

(** ** The GitHub provider: getBadges *)

Record GetBadgesArgs := mkGetBadges {
  gb_user : option string;
  gb_token : option string;
  gb_owner : option string;
  gb_repo : option string;
  gb_dryrun : option bool;
  gb_cwd : option string;
}.

(** A destructuring default: taken when the property is [undefined]. *)
Definition or_default {A} (x : option A) (d : option A) : option A :=
  match x with Some _ => x | None => d end.

(** The body of the loop [for (const b of userBadges)]. *)
Definition addMissingTier (b : jsval) : error + jsval :=
  match read_prop b "tier" with
  | inl e => inl e
  | inr t => if is_undefined t then write_prop b "tier" (JNumber 0) else inr b
  end.

Fixpoint addMissingTiers (bs : list jsval) : error + list jsval :=
  match bs with
  | [] => inr []
  | b :: rest =>
      match addMissingTier b with
      | inl e => inl e
      | inr b' =>
          match addMissingTiers rest with
          | inl e => inl e
          | inr rest' => inr (b' :: rest')
          end
      end
  end.

(** [userBadges.sha = content.sha] and the loop that follows; only an
    array is iterable among the values [JSON.parse] builds once the
    assignment went through. *)
Definition normalizeBadges (userBadges : jsval) (sha : option string)
    : error + jsval :=
  match write_prop userBadges "sha" (js_of_string sha) with
  | inl e => inl e
  | inr (JArray items props) =>
      match addMissingTiers items with
      | inl e => inl e
      | inr items' => inr (JArray items' props)
      end
  | inr _ => inl TypeError
  end.

Definition parse_json `{Imports} (s : string) : error + jsval :=
  match JSON_parse s with
  | Some v => inr v
  | None => inl SyntaxError
  end.

(** [err instanceof RequestError && err.response?.status != 404] *)
Definition rethrown (err : error) : bool :=
  match err with
  | RequestError (Some 404) => false
  | RequestError _ => true
  | _ => false
  end.

Definition badges_read_opts `{Imports} (a : GetBadgesArgs) : UpsertOpts :=
  let owner := or_default (gb_owner a) (gb_user a) in
  let repo := or_default (gb_repo a) (gb_user a) in
  let dryrun := default false (gb_dryrun a) in
  mkOpts (gb_token a) (plain EmptyString) owner repo MY_BADGES_JSON_PATH
         dryrun (gb_cwd a) EmptyString EmptyString.

(** The [catch (err)] block, with the [return []] it falls through to. *)
Definition getBadges_catch (err : error) : prog jsval :=
  if rethrown err then Throw err else mret (JArray [] []).

Definition getBadges `{Imports} (a : GetBadgesArgs) : prog jsval :=
  try_catch
    (content ← read (badges_read_opts a);
     userBadges ← lift (parse_json (text content));
     lift (normalizeBadges userBadges (sha content)))
    getBadges_catch.

(** The values that take a property assignment. *)
Definition is_object (v : jsval) : bool :=
  match v with
  | JArray _ _ | JObject _ => true
  | _ => false
  end.

(** ** The update entry point: normalizeOpts, getData, getSnapshot *)

(** The two methods of [TProvider] the snapshot loader calls. *)
Record TProvider := mkProvider {
  provider_getData : string → option string → prog jsval;
  provider_getBadges : GetBadgesArgs → prog jsval;
}.

(** [collect(octokit, user)] is a call to the outside world. *)
Definition githubProvider `{Imports} : TProvider :=
  mkProvider (λ user token, call (Collect token user)) getBadges.

Module Update.

(** The argument vector; [positional] is [argv._]. *)
Record Argv := mkArgv {
  token : option string;
  repo : option string;
  user : option string;
  positional : option (list string);
  data : option string;
  size : option Size;
  dryrun : option bool;
  compact : option bool;
  shuffle : option bool;
  pick : option string;
  omit : option string;
  provider : option TProvider;
  cwd : option string;
}.

Record Env := mkEnv {
  GITHUB_TOKEN : option string;
  GITHUB_REPO : option string;
  GITHUB_USER : option string;
}.

End Update.

Record NormalizedOpts := mkNormalized {
  n_token : option string;
  n_owner : option string;
  n_repo : option string;
  n_user : option string;
  n_size : Size;
  n_dryrun : bool;
  n_compact : bool;
  n_shuffle : bool;
  n_pickBadges : list string;
  n_omitBadges : list string;
  n_dataPath : string;
  n_provider : TProvider;
  n_cwd : option string;
}.

(** [user = argv._[0] || env.GITHUB_USER], evaluated when [argv.user] is
    [undefined]; indexing an [undefined] [argv._] throws. *)
Definition default_user (argv : Update.Argv) (env : Update.Env)
    : error + option string :=
  match Update.user argv with
  | Some u => inr (Some u)
  | None =>
      match Update.positional argv with
      | Some args => inr (or_else (args !! 0%nat) (Update.GITHUB_USER env))
      | None => inl TypeError
      end
  end.

(** [repository?.split('/', 2) || [user, user]], destructured. *)
Definition owner_repo (repository user : option string)
    : option string * option string :=
  match repository with
  | Some r =>
      let parts := split_limit "/" 2 r in
      (parts !! 0%nat, parts !! 1%nat)
  | None => (user, user)
  end.

Definition split_ids (ids : option string) : list string :=
  match ids with
  | Some s => if truthy ids then split "," s else []
  | None => []
  end.

Definition normalizeOpts `{Imports} (argv : Update.Argv) (env : Update.Env)
    : error + NormalizedOpts :=
  let token := or_default (Update.token argv) (Update.GITHUB_TOKEN env) in
  let repository := or_default (Update.repo argv) (Update.GITHUB_REPO env) in
  match default_user argv env with
  | inl e => inl e
  | inr user =>
      let dataPath := default EmptyString (Update.data argv) in
      let size := default (SizeNumber 64) (Update.size argv) in
      let dryrun := default false (Update.dryrun argv) in
      let compact := default false (Update.compact argv) in
      let shuffle := default false (Update.shuffle argv) in
      let provider := default githubProvider (Update.provider argv) in
      let cwd := default process_cwd (Update.cwd argv) in
      let '(owner, repo) := owner_repo repository user in
      let pickBadges := split_ids (Update.pick argv) in
      let omitBadges := split_ids (Update.omit argv) in
      inr (mkNormalized token owner repo user size dryrun compact shuffle
                        pickBadges omitBadges dataPath provider (Some cwd))
  end.

Definition getData `{Imports} (o : NormalizedOpts) : prog jsval :=
  let cwd := default process_cwd (n_cwd o) in
  if negb (String.eqb (n_dataPath o) EmptyString) then
    found ← call (FsExistsSync (n_dataPath o));
    if negb found then Throw (Error "Data file not found")
    else
      s ← call (FsReadFile (path_resolve cwd (n_dataPath o)));
      lift (parse_json s)
  else
    match n_user o with
    | Some (String _ _ as user) =>
        data ← provider_getData (n_provider o) user (n_token o);
        let filepath := path_join cwd ("data/" +:+ user +:+ ".json") in
        _ ← call (WriteFile filepath (JSON_stringify data));
        mret data
    | _ => Throw (Error "Specify username")
    end.

Record Snapshot := mkSnapshot {
  snapshot_data : jsval;
  snapshot_userBadges : jsval;
}.

Definition getSnapshot `{Imports} (o : NormalizedOpts) : prog Snapshot :=
  data ← getData o;
  userBadges ←
    (if truthy (n_owner o) && truthy (n_repo o) then
       provider_getBadges (n_provider o)
         (mkGetBadges (n_user o) (n_token o) (n_owner o) (n_repo o) None None)
     else mret (JArray [] []));
  mret (mkSnapshot data userBadges).

(** ** A model of the content store

    The remote repository holds files under (owner, repo, path), each with
    its transport text and a revision token; the local disk holds files by
    name.  A read of a missing file is answered with status 404 (remote) or
    a thrown error (local); a write whose revision token does not match the
    stored one is rejected.  The README endpoint serves the first file, in
    the order of [readme_names], that the repository holds. *)
Class StoreModel := {
  blob_sha : string → string;
  readme_names : list string;
}.

Record RepoFile := mkFile {
  file_content : string;
  file_sha : string;
}.

Record World := mkWorld {
  remote : gmap (option string * option string * string) RepoFile;
  disk : gmap string string;
  profile : jsval;
}.

Definition held (w : World) (owner repo : option string) (p : string) : bool :=
  bool_decide (is_Some (remote w !! (owner, repo, p))).

Definition served_path `{StoreModel} (w : World) (r : get_request)
    : option string :=
  match get_endpoint r with
  | ContentsEndpoint => Some (get_path r)
  | ReadmeEndpoint => List.find (held w (get_owner r) (get_repo r)) readme_names
  end.

Definition store_get `{StoreModel} (w : World) (r : get_request)
    : error + contents_data :=
  match served_path w r with
  | Some p =>
      match remote w !! (get_owner r, get_repo r, p) with
      | Some f => inr (mkData (file_content f) (file_sha f) p)
      | None => inl (RequestError (Some 404))
      end
  | None => inl (RequestError (Some 404))
  end.

Definition token_matches (stored : option RepoFile) (given : option string)
    : bool :=
  match stored, given with
  | Some f, Some s => String.eqb s (file_sha f)
  | None, None => true
  | _, _ => false
  end.

Definition put_file (w : World) (owner repo : option string) (p : string)
    (f : RepoFile) : World :=
  mkWorld (<[(owner, repo, p) := f]> (remote w)) (disk w) (profile w).

Definition store_put `{StoreModel} (w : World) (r : put_request)
    : (error + unit) * World :=
  let key := (put_owner r, put_repo r, put_path r) in
  if token_matches (remote w !! key) (put_sha r) then
    (inr tt,
     put_file w (put_owner r) (put_repo r) (put_path r)
              (mkFile (put_content r) (blob_sha (put_content r))))
  else (inl (RequestError (Some 409)), w).

Definition github `{StoreModel} : handler World :=
  λ c, match c as c' return World → (error + response c') * World with
       | FsReadFile file => λ w,
           (match disk w !! file with
            | Some s => inr s
            | None => inl (Error "ENOENT")
            end, w)
       | FsExistsSync file => λ w,
           (inr (bool_decide (is_Some (disk w !! file))), w)
       | WriteFile file content => λ w,
           (inr tt, mkWorld (remote w) (<[file := content]> (disk w)) (profile w))
       | OctokitGet r => λ w, (store_get w r, w)
       | OctokitPut r => λ w, store_put w r
       | Collect _ _ => λ w, (inr (profile w), w)
       end.

(** ** Concrete instances

    Stand-ins for the imported names and for the store, used to run the
    embedding on concrete inputs. *)
Module Fixture.

Definition manifest_text : string :=
  "[{" +:+ dq +:+ "id" +:+ dq +:+ ":" +:+ dq +:+ "stars-100" +:+ dq +:+ "}]".

Definition manifest_value : jsval :=
  JArray [JObject [("id", JString "stars-100")]] [].

(** [JSON.parse] on the texts the examples use. *)
Definition parse (s : string) : option jsval :=
  if String.eqb s manifest_text then Some manifest_value
  else if String.eqb s "[]" then Some (JArray [] [])
  else None.

Definition width (size : Size) : string :=
  match size with
  | SizeNumber n => pretty n
  | SizeString s => s
  end.

#[export] Instance imports : Imports := {|
  quoteAttr := λ s, s;
  encodeBase64 := λ s, "b64:" +:+ s;
  decodeBase64 := str_drop 4;
  MY_BADGES_JSON_PATH := "my-badges/my-badges.json";
  JSON_parse := parse;
  JSON_stringify := λ _, "{}";
  path_resolve := λ d p, d +:+ "/" +:+ p;
  path_join := λ d p, d +:+ "/" +:+ p;
  process_cwd := "/work";
  widthText := width;
|}.

#[export] Instance store : StoreModel := {|
  blob_sha := λ s, "sha:" +:+ s;
  readme_names := ["README.md"; "readme.md"];
|}.

Definition empty_world : World := mkWorld ∅ ∅ JNull.

(** A world in which every remote read fails with the given status. *)
Definition failing (status : Z) : handler unit :=
  λ c, match c as c' return unit → (error + response c') * unit with
       | OctokitGet _ => λ w, (inl (RequestError (Some status)), w)
       | OctokitPut _ => λ w, (inr tt, w)
       | FsReadFile _ => λ w, (inl (Error "ENOENT"), w)
       | FsExistsSync _ => λ w, (inr false, w)
       | WriteFile _ _ => λ w, (inr tt, w)
       | Collect _ _ => λ w, (inr JNull, w)
       end.

(** A world whose remote reads are answered with the given text. *)
Definition serving (stored : string) : handler unit :=
  λ c, match c as c' return unit → (error + response c') * unit with
       | OctokitGet r => λ w, (inr (mkData ("b64:" +:+ stored) "abc" (get_path r)), w)
       | OctokitPut _ => λ w, (inr tt, w)
       | FsReadFile _ => λ w, (inr stored, w)
       | FsExistsSync _ => λ w, (inr true, w)
       | WriteFile _ _ => λ w, (inr tt, w)
       | Collect _ _ => λ w, (inr JNull, w)
       end.

Definition args : GetBadgesArgs :=
  mkGetBadges (Some "octocat") (Some "t0ken") (Some "octocat") (Some "octocat")
              None None.

Definition opts (path text : string) (dry : bool) : UpsertOpts :=
  mkOpts (Some "t0ken") (plain text) (Some "octocat") (Some "octocat") path
         dry (Some "/work") "bot" "bot@example.org".

End Fixture.

(** ** Local and remote calls

    The calls that leave the machine (the REST client and the collector)
    and the calls that stay on the local file system. *)
Definition is_remote (c : cmd) : bool :=
  match c with
  | OctokitGet _ | OctokitPut _ | Collect _ _ => true
  | FsReadFile _ | FsExistsSync _ | WriteFile _ _ => false
  end.

Definition is_local (c : cmd) : bool := negb (is_remote c).

(** The file of the remote repository a run of [upsert] writes, if it
    writes: the [path] of what was read, or [contentPath]. *)
Definition upsert_target `{Imports} `{StoreModel} (opts : UpsertOpts) (w : World)
    : option string * option string * string :=
  (owner opts, repo opts,
   or_string (path (read_answer github opts w)) (contentPath opts)).

(** The file [upsert] stores when it writes. *)
Definition desired_file `{Imports} `{StoreModel} (opts : UpsertOpts) : RepoFile :=
  mkFile (encodeBase64 (text (content opts)))
         (blob_sha (encodeBase64 (text (content opts)))).

(** ** The GitHub provider: the uploads of updateBadges

    [updateBadges] reads the README, builds the record [uploads] and then
    starts one [upsert] per entry.  The record maps a content path to its
    text; an assignment to a path that is already there replaces the text. *)

(** [my-badges/${badge.id}.md] *)
Definition badgePath (badge : Badge) : string :=
  "my-badges/" +:+ badge_id badge +:+ ".md".

(** The page of one badge. *)
Definition badgePage `{Imports} (badge : Badge) : string :=
  let desc := quoteAttr (badge_desc badge) in
  ("<img src=" +:+ dq +:+ badge_image badge +:+ dq
   +:+ " alt=" +:+ dq +:+ desc +:+ dq
   +:+ " title=" +:+ dq +:+ desc +:+ dq
   +:+ " width=" +:+ dq +:+ "128" +:+ dq +:+ ">" +:+ nl)
  +:+ ("<strong>" +:+ desc +:+ "</strong>" +:+ nl)
  +:+ ("<br><br>" +:+ nl +:+ nl)
  +:+ badge_body badge
  +:+ (nl +:+ nl +:+ nl)
  +:+ ("Created by <a href=" +:+ dq +:+ "https://github.com/my-badges/my-badges"
       +:+ dq +:+ ">My Badges</a>").

(** The loop [for (const badge of badges)] over the record. *)
Definition add_pages `{Imports} (uploads : gmap string string)
    (badges : list Badge) : gmap string string :=
  foldl (λ m badge, <[badgePath badge := badgePage badge]> m) uploads badges.

(** The record [uploads]; [manifest] is [JSON.stringify(badges, null, 2)]
    and [readme] the generated README. *)
Definition uploads `{Imports} (manifest readme : string) (badges : list Badge)
    : gmap string string :=
  add_pages (<["readme.md" := readme]> {[MY_BADGES_JSON_PATH := manifest]})
            badges.





(** ** Further concrete worlds *)
Module Scenario.

(** A world that serves the given text and refuses every write. *)
Definition rejecting (stored : string) : handler unit :=
  λ c, match c as c' return unit → (error + response c') * unit with
       | OctokitGet r => λ w, (inr (mkData ("b64:" +:+ stored) "abc" (get_path r)), w)
       | OctokitPut _ => λ w, (inl (RequestError (Some 409)), w)
       | FsReadFile _ => λ w, (inr stored, w)
       | FsExistsSync _ => λ w, (inr true, w)
       | WriteFile _ _ => λ w, (inl (Error "EACCES"), w)
       | Collect _ _ => λ w, (inr JNull, w)
       end.

(** A repository whose README is the file [README.md]. *)
Definition with_readme : World :=
  put_file Fixture.empty_world (Some "octocat") (Some "octocat") "README.md"
           (mkFile "b64:old" "sha:b64:old").

Definition badge (id : string) : Badge :=
  mkBadge id 0 ("badge " +:+ id) "body" (id +:+ ".png").

(** [JSON.parse] on two more texts. *)
Definition parse (s : string) : option jsval :=
  if String.eqb s "{}" then Some (JObject [])
  else if String.eqb s "[null]" then Some (JArray [JNull] [])
  else Fixture.parse s.

Definition imports : Imports := {|
  quoteAttr := λ s, s;
  encodeBase64 := λ s, "b64:" +:+ s;
  decodeBase64 := str_drop 4;
  MY_BADGES_JSON_PATH := "my-badges/my-badges.json";
  JSON_parse := parse;
  JSON_stringify := λ _, "{}";
  path_resolve := λ d p, d +:+ "/" +:+ p;
  path_join := λ d p, d +:+ "/" +:+ p;
  process_cwd := "/work";
  widthText := Fixture.width;
|}.

(** Normalized options with the GitHub provider. *)
Definition options (dataPath : string) (user : option string) : NormalizedOpts :=
  mkNormalized (Some "t0ken") (Some "octocat") (Some "octocat") user
               (SizeNumber 64) false false false [] [] dataPath
               (githubProvider (H := Fixture.imports)) (Some "/work").

(** A disk that holds [data.json] and nothing under the working
    directory. *)
Definition with_data : World :=
  mkWorld ∅ {["data.json" := "[]"]} JNull.


End Scenario.

(** * Properties *)

(** ** Strings *)
Section StringFacts.

Implicit Types (s p a b : string) (n k : nat).

Lemma app_nil_str s : EmptyString +:+ s = s.
Proof. reflexivity. Qed.

Lemma app_cons_str x a b : String x a +:+ b = String x (a +:+ b).
Proof. reflexivity. Qed.

Lemma app_assoc_str a b c : (a +:+ b) +:+ c = a +:+ (b +:+ c).
Proof.
  induction a as [|x a IH]; [done|].
  rewrite !app_cons_str. by f_equal.
Qed.

Lemma app_empty_r s : s +:+ EmptyString = s.
Proof.
  induction s as [|x s IH]; [done|].
  rewrite app_cons_str. by f_equal.
Qed.

Lemma length_app_str a b :
  String.length (a +:+ b) = (String.length a + String.length b)%nat.
Proof.
  induction a as [|x a IH]; [done|].
  rewrite app_cons_str. simpl. by rewrite IH.
Qed.

Lemma str_take_drop n s : str_take n s +:+ str_drop n s = s.
Proof.
  revert s; induction n as [|n IH]; intros [|c s]; simpl; try done.
  rewrite app_cons_str. by rewrite IH.
Qed.

Lemma length_str_take n s :
  (n ≤ String.length s)%nat → String.length (str_take n s) = n.
Proof.
  revert s; induction n as [|n IH]; intros [|c s]; simpl; try done; try lia.
  intros Hle. rewrite IH; [done | lia].
Qed.

Lemma length_str_drop n s :
  String.length (str_drop n s) = (String.length s - n)%nat.
Proof.
  revert s; induction n as [|n IH]; intros [|c s]; simpl; try done.
Qed.

Lemma str_take_app a b : str_take (String.length a) (a +:+ b) = a.
Proof.
  induction a as [|x a IH]; [by destruct b|].
  rewrite app_cons_str. simpl. by rewrite IH.
Qed.

Lemma str_drop_app a b : str_drop (String.length a) (a +:+ b) = b.
Proof.
  induction a as [|x a IH]; [done|].
  rewrite app_cons_str. simpl. done.
Qed.

Lemma str_take_all s : str_take (String.length s) s = s.
Proof. induction s as [|x s IH]; simpl; [done | by rewrite IH]. Qed.

Lemma str_drop_drop n k s : str_drop n (str_drop k s) = str_drop (k + n) s.
Proof.
  revert s; induction k as [|k IH]; intros s; simpl; [done|].
  destruct s as [|c s]; [by destruct n | apply IH].
Qed.

Lemma startsWith_app p s : startsWith p (p +:+ s) = true.
Proof.
  induction p as [|x p IH]; [done|].
  rewrite app_cons_str. simpl.
  destruct (ascii_dec x x); [done | congruence].
Qed.

Lemma startsWith_inv p s : startsWith p s = true → ∃ t, s = p +:+ t.
Proof.
  revert s; induction p as [|x p IH]; intros s; simpl.
  - intros _. by exists s.
  - destruct s as [|y s]; [done|].
    destruct (ascii_dec x y) as [->|]; [|done].
    intros [t ->]%IH. by exists t.
Qed.

Lemma startsWith_length p s :
  startsWith p s = true → (String.length p ≤ String.length s)%nat.
Proof. intros [t ->]%startsWith_inv. rewrite length_app_str. lia. Qed.

(** An occurrence is a position at which the pattern starts. *)
Lemma occurs_position p s :
  occurs p s ↔ ∃ k, startsWith p (str_drop k s) = true.
Proof.
  split.
  - intros (a & b & ->). exists (String.length a).
    rewrite str_drop_app. apply startsWith_app.
  - intros (k & [t Ht]%startsWith_inv). exists (str_take k s), t.
    rewrite <- Ht. symmetry. apply str_take_drop.
Qed.

Lemma indexOf_from_found s p i r :
  indexOf_from s p i = r → r ≠ -1 → 0 ≤ i →
  ∃ k, r = i + Z.of_nat k ∧ startsWith p (str_drop k s) = true.
Proof.
  revert i; induction s as [|c s IH]; intros i; simpl.
  - destruct (startsWith p EmptyString) eqn:E; [|congruence].
    intros <- _ _. exists 0%nat. split; [lia | done].
  - destruct (startsWith p (String c s)) eqn:E.
    + intros <- _ _. exists 0%nat. split; [lia | done].
    + intros Hr Hne Hi. destruct (IH (i + 1) Hr Hne) as (k & -> & Hk); [lia|].
      exists (S k). split; [lia | done].
Qed.

Lemma indexOf_from_missing s p i :
  indexOf_from s p i = -1 → 0 ≤ i → ∀ k, startsWith p (str_drop k s) = false.
Proof.
  revert i; induction s as [|c s IH]; intros i; simpl.
  - destruct (startsWith p EmptyString) eqn:E; [lia|].
    intros _ _ k. by destruct k.
  - destruct (startsWith p (String c s)) eqn:E; [lia|].
    intros Hr Hi [|k]; simpl; [done|]. apply (IH (i + 1)); [done | lia].
Qed.

Lemma indexOf_absent s p : indexOf s p = -1 ↔ ¬ occurs p s.
Proof.
  rewrite occurs_position. split.
  - intros Hr [k Hk]. unfold indexOf in Hr.
    rewrite (indexOf_from_missing _ _ _ Hr) in Hk; [done | lia].
  - intros Hno. destruct (decide (indexOf s p = -1)) as [|Hne]; [done|].
    destruct (indexOf_from_found s p 0 _ eq_refl Hne) as (k & _ & Hk); [lia|].
    destruct Hno. by exists k.
Qed.

Lemma indexOf_present s p :
  occurs p s →
  ∃ k, indexOf s p = Z.of_nat k ∧ startsWith p (str_drop k s) = true
       ∧ (k + String.length p ≤ String.length s)%nat.
Proof.
  intros Hocc. destruct (decide (indexOf s p = -1)) as [Habs|Hne].
  - by apply indexOf_absent in Habs.
  - destruct (indexOf_from_found s p 0 _ eq_refl Hne) as (k & Hr & Hk); [lia|].
    exists k. split; [unfold indexOf; lia|]. split; [done|].
    apply startsWith_length in Hk. rewrite length_str_drop in Hk.
    assert (String.length p ≠ 0%nat ∨ String.length p = 0%nat) as [Hp|Hp] by lia.
    + lia.
    + destruct p; [|done]. simpl in *.
      destruct s as [|c s]; simpl in *.
      * unfold indexOf in Hr. simpl in Hr. lia.
      * unfold indexOf in Hr. simpl in Hr. lia.
Qed.

Lemma slice_prefix s k :
  (k ≤ String.length s)%nat → slice s 0 (Z.of_nat k) = str_take k s.
Proof.
  intros Hk. unfold slice, clamp, len. simpl.
  destruct (Z.of_nat k <? 0) eqn:E; [lia|].
  rewrite Z.min_l by lia. rewrite Z.min_l by lia.
  replace (Z.to_nat (Z.of_nat k - 0)) with k by lia. done.
Qed.

Lemma slice_suffix s k :
  (k ≤ String.length s)%nat → slice_from s (Z.of_nat k) = str_drop k s.
Proof.
  intros Hk. unfold slice_from, slice, clamp, len.
  destruct (Z.of_nat k <? 0) eqn:E; [lia|].
  destruct (Z.of_nat (String.length s) <? 0) eqn:E'; [lia|].
  rewrite Z.min_l by lia. rewrite Z.min_l by lia.
  rewrite Nat2Z.id.
  replace (Z.to_nat (Z.of_nat (String.length s) - Z.of_nat k))
    with (String.length (str_drop k s)) by (rewrite length_str_drop; lia).
  apply str_take_all.
Qed.

Lemma split_no_separator sep s :
  ¬ occurs (String sep EmptyString) s → split sep s = [s].
Proof.
  induction s as [|c s IH]; simpl; [done|].
  intros Hno. destruct (ascii_dec c sep) as [->|Hne].
  - destruct Hno. by exists EmptyString, s.
  - rewrite IH; [done|]. intros (a & b & ->). apply Hno.
    by exists (String c a), b.
Qed.

End StringFacts.

(** ** The README templater *)
Section TemplaterFacts.

Context `{!Imports}.
Implicit Types (readme : string) (badges : list Badge) (size : Size).

(** The rewrite, once both markers are located: the text before the start
    marker, the managed section, the text after the end marker. *)
Lemma generateReadme_located readme badges size (start end_ : nat) :
  indexOf readme startString = Z.of_nat start →
  indexOf readme endString = Z.of_nat end_ →
  (start ≤ String.length readme)%nat →
  (end_ + String.length endString ≤ String.length readme)%nat →
  generateReadme readme badges size =
    str_take start readme
    +:+ managedSection badges size (needToAddNewLine readme (Z.of_nat end_))
    +:+ str_drop (end_ + String.length endString) readme.
Proof.
  intros Hs He Hsl Hel. unfold generateReadme, managedSection.
  rewrite Hs, He.
  replace (negb (Z.of_nat start =? -1) && negb (Z.of_nat end_ =? -1)) with true
    by (symmetry; apply andb_true_iff; split; apply negb_true_iff, Z.eqb_neq; lia).
  replace (Z.of_nat end_ + len endString)
    with (Z.of_nat (end_ + String.length endString)) by (unfold len; lia).
  rewrite (slice_prefix readme start Hsl), (slice_suffix readme _ Hel).
  set (before := str_take start readme).
  set (after := str_drop (end_ + String.length endString) readme).
  assert (String.length before = start) as Hlen by by apply length_str_take.
  rewrite slice_prefix, slice_suffix
    by (rewrite length_app_str, Hlen; lia).
  rewrite <- Hlen at 1 2. rewrite str_take_app, str_drop_app.
  by rewrite !app_assoc_str.
Qed.

(** C2: for a document that holds both markers, the result is the text
    before the first start marker, then the managed section, then the text
    after the first end marker: every code unit before the start marker and
    every one after the end of the end marker is kept, and when the start
    marker comes first the only part of the document that is not kept is the
    span from the start marker to the end of the end marker. *)
Theorem generateReadme_preserves_outside readme badges size :
  occurs startString readme →
  occurs endString readme →
  ∃ start end_ : nat,
    indexOf readme startString = Z.of_nat start
    ∧ indexOf readme endString = Z.of_nat end_
    ∧ startsWith startString (str_drop start readme) = true
    ∧ startsWith endString (str_drop end_ readme) = true
    ∧ generateReadme readme badges size =
        str_take start readme
        +:+ managedSection badges size (needToAddNewLine readme (Z.of_nat end_))
        +:+ str_drop (end_ + String.length endString) readme
    ∧ ((start ≤ end_)%nat →
       readme =
         str_take start readme
         +:+ str_take (end_ + String.length endString - start)
                      (str_drop start readme)
         +:+ str_drop (end_ + String.length endString) readme).
Proof.
  intros (start & Hs & Hsw & Hsl)%indexOf_present
         (end_ & He & Hew & Hel)%indexOf_present.
  exists start, end_. repeat split; try done.
  - apply generateReadme_located; [done | done | lia | done].
  - intros Hle.
    replace (end_ + String.length endString)%nat
      with (start + (end_ + String.length endString - start))%nat at 2 by lia.
    rewrite <- str_drop_drop.
    by rewrite !str_take_drop.
Qed.

(** C3: when the start marker or the end marker does not occur in the
    document, generateReadme returns the document as it is, whatever the
    badges and the size. *)
Theorem generateReadme_without_markers readme badges size :
  ¬ occurs startString readme ∨ ¬ occurs endString readme →
  generateReadme readme badges size = readme.
Proof.
  intros Hno. unfold generateReadme.
  destruct Hno as [Hno|Hno]; apply indexOf_absent in Hno; rewrite Hno; simpl.
  - done.
  - by rewrite andb_false_r.
Qed.

(** C4, as the code has it: the probe reads the code unit at
    [end + endString.length + 1], one place after the one that follows the
    end marker.  A document in which a newline follows the end marker gets a
    second newline, and a document in which another code unit follows it,
    with a newline next, gets none. *)
Theorem generateReadme_newline_probe badges size :
  generateReadme (startString +:+ endString +:+ nl) badges size
    = managedSection badges size true +:+ nl
  ∧ generateReadme (startString +:+ endString +:+ "x" +:+ nl) badges size
    = managedSection badges size false +:+ "x" +:+ nl.
Proof.
  split.
  - rewrite (generateReadme_located _ badges size 0 24);
      [reflexivity | reflexivity | reflexivity | simpl; lia | simpl; lia].
  - rewrite (generateReadme_located _ badges size 0 24);
      [reflexivity | reflexivity | reflexivity | simpl; lia | simpl; lia].
Qed.

End TemplaterFacts.

(** C2 on a README with a heading, a stale section and a footer. *)
Lemma generateReadme_preserves_outside_witness :
  let readme :=
    "# Hi" +:+ nl +:+ startString +:+ "stale" +:+ endString +:+ nl +:+ "bye" in
  occurs startString readme ∧ occurs endString readme ∧
  ∃ start end_ : nat,
    generateReadme (H := Fixture.imports) readme [] (SizeNumber 64) =
      str_take start readme
      +:+ managedSection (H := Fixture.imports) [] (SizeNumber 64)
            (needToAddNewLine readme (Z.of_nat end_))
      +:+ str_drop (end_ + String.length endString) readme.
Proof.
  intros readme.
  assert (occurs startString readme) as Hs
    by (exists ("# Hi" +:+ nl), ("stale" +:+ endString +:+ nl +:+ "bye"); reflexivity).
  assert (occurs endString readme) as He
    by (exists ("# Hi" +:+ nl +:+ startString +:+ "stale"), (nl +:+ "bye"); reflexivity).
  split; [exact Hs|]. split; [exact He|].
  destruct (generateReadme_preserves_outside (H := Fixture.imports)
              readme [] (SizeNumber 64) Hs He)
    as (start & end_ & _ & _ & _ & _ & Heq & _).
  exists start, end_. exact Heq.
Defined.

(** C3 on a README without a managed section. *)
Lemma generateReadme_without_markers_witness :
  (¬ occurs startString "# Hi" ∨ ¬ occurs endString "# Hi")
  ∧ generateReadme (H := Fixture.imports) "# Hi" [] (SizeNumber 64) = "# Hi".
Proof.
  assert (¬ occurs startString "# Hi" ∨ ¬ occurs endString "# Hi") as Hno
    by (left; apply indexOf_absent; reflexivity).
  split; [exact Hno|].
  exact (generateReadme_without_markers (H := Fixture.imports)
           "# Hi" [] (SizeNumber 64) Hno).
Defined.

(** ** Running programs *)
Section RunFacts.

Context {W : Type} (h : handler W).

Lemma outcome_eta {A} (o : outcome W A) :
  mkOutcome (result o) (final o) (trace o) = o.
Proof. by destruct o. Qed.

Lemma run_bind {A B} (p : prog A) (f : A → prog B) w :
  run h (p ≫= f) w =
    match result (run h p w) with
    | inr a =>
        let o' := run h (f a) (final (run h p w)) in
        mkOutcome (result o') (final o') (trace (run h p w) ++ trace o')
    | inl e => mkOutcome (inl e) (final (run h p w)) (trace (run h p w))
    end.
Proof.
  unfold mbind, prog_bind. revert w.
  induction p as [a|e|c k IH]; intros w; simpl.
  - by rewrite outcome_eta.
  - done.
  - destruct (h c w) as [r w']. rewrite IH. simpl.
    by destruct (result (run h (k r) w')).
Qed.

Lemma run_try_catch {A} (p : prog A) (handle : error → prog A) w :
  run h (try_catch p handle) w =
    match result (run h p w) with
    | inr a => mkOutcome (inr a) (final (run h p w)) (trace (run h p w))
    | inl e =>
        let o' := run h (handle e) (final (run h p w)) in
        mkOutcome (result o') (final o') (trace (run h p w) ++ trace o')
    end.
Proof.
  revert w. induction p as [a|e|c k IH]; intros w; simpl.
  - done.
  - by rewrite outcome_eta.
  - destruct (h c w) as [r w']. rewrite IH. simpl.
    by destruct (result (run h (k r) w')).
Qed.

Lemma writes_app {A B} (o : outcome W A) (o' : outcome W B) t :
  trace o' = trace o ++ t →
  writes o' = writes o ++ filter (λ c, is_write c = true) t.
Proof. unfold writes. intros ->. apply filter_app. Qed.

End RunFacts.

(** ** The synchronizer *)
Section SynchronizerFacts.

Context `{!Imports} {W : Type} (h : handler W).
Implicit Types (opts : UpsertOpts) (w : W).

Lemma run_read opts w :
  result (run h (read opts) w) = inr (read_answer h opts w)
  ∧ writes (run h (read opts) w) = [].
Proof.
  unfold read, read_answer, writes.
  destruct (dryrun opts); simpl.
  - destruct (cwd opts) as [d|]; simpl; [|done].
    destruct (h (FsReadFile _) w) as [[e|s] w']; simpl; done.
  - destruct (h (OctokitGet _) w) as [[e|d] w']; simpl; done.
Qed.

(** C7: against every world, whatever it answers, [read] returns a value
    and throws nothing; when the underlying local or remote read fails, with
    status 404 or with any other error, the value is the empty string with
    no [sha] and no [path]. *)
Theorem read_never_throws opts w :
  (∃ c, result (run h (read opts) w) = inr c)
  ∧ (if dryrun opts then
       match cwd opts with
       | None => result (run h (read opts) w) = inr (mkContent EmptyString None None)
       | Some d =>
           match (h (FsReadFile (path_resolve d (contentPath opts))) w).1 with
           | inl _ =>
               result (run h (read opts) w) = inr (mkContent EmptyString None None)
           | inr s => result (run h (read opts) w) = inr (mkContent s None None)
           end
       end
     else
       match (h (OctokitGet (read_request opts)) w).1 with
       | inl _ =>
           result (run h (read opts) w) = inr (mkContent EmptyString None None)
       | inr d =>
           result (run h (read opts) w) =
             inr (mkContent (decodeBase64 (data_content d))
                            (Some (data_sha d)) (Some (data_path d)))
       end).
Proof.
  destruct (run_read opts w) as [Hr _]. split; [by eexists|].
  rewrite Hr. unfold read_answer, plain.
  destruct (dryrun opts).
  - destruct (cwd opts) as [d|]; [|done].
    by destruct ((h (FsReadFile _) w).1).
  - by destruct ((h (OctokitGet _) w).1).
Qed.

End SynchronizerFacts.

Section UpsertFacts.

Context `{!Imports} {W : Type} (h : handler W).
Implicit Types (opts : UpsertOpts) (w : W).

(** [upsert] is the read, then nothing or the upload of the desired text
    with the [sha] and [path] of what was read. *)
Lemma run_upsert opts w :
  let c := read_answer h opts w in
  let o := run h (read opts) w in
  run h (upsert opts) w =
    if String.eqb (text (content opts)) (text c) then
      mkOutcome (inr tt) (final o) (trace o)
    else
      let o' := run h (upload (with_content opts
                  (mkContent (text (content opts)) (sha c) (path c)))) (final o) in
      mkOutcome (result o') (final o') (trace o ++ trace o').
Proof.
  intros c o. unfold upsert. rewrite run_bind.
  destruct (run_read h opts w) as [-> _]. fold c. fold o.
  destruct (String.eqb _ _); simpl; [|done].
  by rewrite app_nil_r.
Qed.

Lemma upsert_unchanged opts w c :
  result (run h (read opts) w) = inr c →
  text (content opts) = text c →
  result (run h (upsert opts) w) = inr tt
  ∧ writes (run h (upsert opts) w) = []
  ∧ final (run h (upsert opts) w) = final (run h (read opts) w).
Proof.
  intros Hr Heq. destruct (run_read h opts w) as [Hr' Hw].
  rewrite Hr' in Hr. injection Hr as <-.
  rewrite run_upsert. rewrite Heq, String.eqb_refl. by simpl.
Qed.

(** C5: when the desired text differs from the text [read] returned, the
    one write of [upsert] is, outside a dry run, the PUT request that
    carries the [sha] of that very read (and its [path], when it has one);
    in a dry run the read yields no [sha] and the one write is of the
    desired text to the local file [path.join(cwd, contentPath)]. *)
Theorem upsert_write_carries_read_token opts w c :
  result (run h (read opts) w) = inr c →
  text (content opts) ≠ text c →
  if dryrun opts then
    sha c = None
    ∧ ∀ d, cwd opts = Some d →
        writes (run h (upsert opts) w) =
          [WriteFile (path_join d (contentPath opts)) (text (content opts))]
  else
    writes (run h (upsert opts) w) =
      [OctokitPut
         (mkPut (token opts) (owner opts) (repo opts)
                (or_string (path c) (contentPath opts))
                ("chore: " +:+ contentPath opts +:+ " "
                 +:+ (if truthy (sha c) then "updated" else "added"))
                (committerName opts) (committerEmail opts)
                (encodeBase64 (text (content opts)))
                (sha c))].
Proof.
  intros Hr Hne. destruct (run_read h opts w) as [Hr' Hw].
  rewrite Hr' in Hr. injection Hr as Hc.
  apply String.eqb_neq in Hne. rewrite <- Hc in Hne.
  pose proof (run_upsert opts w) as Hu. simpl in Hu. rewrite Hne in Hu.
  destruct (dryrun opts) eqn:Hdry.
  - split.
    + rewrite <- Hc. unfold read_answer. rewrite Hdry.
      destruct (cwd opts); [|done]. by destruct ((h _ w).1).
    + intros d Hd. rewrite Hu. unfold writes in *. simpl.
      rewrite filter_app, Hw. unfold upload, with_content. simpl.
      rewrite Hdry, Hd. simpl.
      destruct (h (WriteFile _ _) _) as [[e|[]] w']; simpl; done.
  - rewrite Hu. unfold writes in *. simpl.
    rewrite filter_app, Hw. unfold upload, with_content. simpl.
    rewrite Hdry. simpl. rewrite <- Hc.
    destruct (h (OctokitPut _) _) as [[e|[]] w']; simpl; done.
Qed.

End UpsertFacts.

(** ** The content store *)
Section StoreFacts.

Context `{!Imports} `{!StoreModel}.
Implicit Types (w : World) (g : get_request) (opts : UpsertOpts).

Lemma find_ext {A} (f g : A → bool) (l : list A) :
  (∀ x, x ∈ l → f x = g x) → List.find f l = List.find g l.
Proof.
  induction l as [|a l IH]; intros Hfg; simpl; [done|].
  rewrite <- (Hfg a) by set_solver.
  destruct (f a); [done|]. apply IH. intros x Hx. apply Hfg. set_solver.
Qed.

Lemma find_only {A} (f : A → bool) (l : list A) (a : A) :
  a ∈ l → (∀ x, x ∈ l → f x = true → x = a) → f a = true →
  List.find f l = Some a.
Proof.
  induction l as [|b l IH]; intros Ha Hu Hfa; simpl; [set_solver|].
  destruct (f b) eqn:Hb.
  - f_equal. apply Hu; [by apply elem_of_cons; left | done].
  - apply elem_of_cons in Ha as [->|Ha]; [congruence|].
    apply IH; [done | | done]. intros x Hx. apply Hu. set_solver.
Qed.

Lemma held_put w owner repo p f x :
  held (put_file w owner repo p f) owner repo x
  = (if decide (x = p) then true else held w owner repo x).
Proof.
  unfold held, put_file. simpl. destruct (decide (x = p)) as [->|Hne].
  - rewrite lookup_insert_eq. by apply bool_decide_eq_true.
  - rewrite lookup_insert_ne by congruence. done.
Qed.

(** A file that was served is served again, with its new text, after it
    was overwritten. *)
Lemma store_get_after_update w g p f f' :
  served_path w g = Some p →
  remote w !! (get_owner g, get_repo g, p) = Some f →
  store_get (put_file w (get_owner g) (get_repo g) p f') g
  = inr (mkData (file_content f') (file_sha f') p).
Proof.
  intros Hserved Hf. unfold store_get.
  assert (served_path (put_file w (get_owner g) (get_repo g) p f') g = Some p)
    as ->.
  { unfold served_path in *. destruct (get_endpoint g); [|done].
    rewrite <- Hserved. apply find_ext. intros x _. rewrite held_put.
    destruct (decide (x = p)) as [->|]; [|done].
    unfold held. symmetry. apply bool_decide_eq_true. by rewrite Hf. }
  unfold put_file. simpl. by rewrite lookup_insert_eq.
Qed.

(** A file that was missing is served once it was created; for the README
    endpoint, when no file under a README name was held and the new file
    has such a name. *)
Lemma store_get_after_create w g p f' :
  match get_endpoint g with
  | ContentsEndpoint => p = get_path g
  | ReadmeEndpoint =>
      p ∈ readme_names
      ∧ ∀ x, x ∈ readme_names → remote w !! (get_owner g, get_repo g, x) = None
  end →
  store_get (put_file w (get_owner g) (get_repo g) p f') g
  = inr (mkData (file_content f') (file_sha f') p).
Proof.
  intros Hcase. unfold store_get.
  assert (served_path (put_file w (get_owner g) (get_repo g) p f') g = Some p)
    as ->.
  { unfold served_path. destruct (get_endpoint g); [|by rewrite Hcase].
    destruct Hcase as [Hp Hnone]. apply find_only; [done | |].
    - intros x Hx. rewrite held_put. destruct (decide (x = p)); [done|].
      unfold held. rewrite (Hnone x Hx). intros Hf.
      apply bool_decide_eq_true in Hf. by destruct Hf.
    - rewrite held_put. by rewrite decide_True. }
  unfold put_file. simpl. by rewrite lookup_insert_eq.
Qed.

Lemma store_get_found w g d :
  store_get w g = inr d →
  served_path w g = Some (data_path d)
  ∧ remote w !! (get_owner g, get_repo g, data_path d)
    = Some (mkFile (data_content d) (data_sha d)).
Proof.
  unfold store_get. destruct (served_path w g) as [p|]; [|done].
  destruct (remote w !! _) as [[c s]|] eqn:Hf; [|done].
  intros [= <-]. simpl. by rewrite Hf.
Qed.

Lemma store_get_missing w g e :
  store_get w g = inl e →
  match get_endpoint g with
  | ContentsEndpoint => remote w !! (get_owner g, get_repo g, get_path g) = None
  | ReadmeEndpoint =>
      ∀ x, x ∈ readme_names → remote w !! (get_owner g, get_repo g, x) = None
  end.
Proof.
  unfold store_get, served_path. destruct (get_endpoint g).
  - destruct (List.find _ _) as [p|] eqn:Hfind.
    + apply List.find_some in Hfind as [_ Hheld].
      unfold held in Hheld. apply bool_decide_eq_true in Hheld as [f Hf].
      by rewrite Hf.
    + intros _ x Hx. apply list_elem_of_In in Hx.
      pose proof (List.find_none _ _ Hfind x Hx) as Hheld.
      unfold held in Hheld. apply bool_decide_eq_false in Hheld.
      destruct (remote w !! _) eqn:E; [|done]. destruct Hheld. by eexists.
  - by destruct (remote w !! _).
Qed.

End StoreFacts.

(** ** Idempotence of the synchronizer on the content store *)
Section Idempotence.

Context `{!Imports} `{!StoreModel}.
Hypothesis decode_encode : ∀ s, decodeBase64 (encodeBase64 s) = s.
Hypothesis readme_md_is_readme : "readme.md" ∈ readme_names.
Hypothesis readme_names_nonempty : EmptyString ∉ readme_names.

Implicit Types (w : World) (opts : UpsertOpts).

Local Arguments or_string : simpl never.

Lemma github_read_final opts w : final (run github (read opts) w) = w.
Proof.
  unfold read. destruct (dryrun opts); simpl.
  - destruct (cwd opts); simpl; [|done]. by destruct (disk w !! _).
  - by destruct (store_get w _).
Qed.

Lemma served_readme_named w g p :
  get_endpoint g = ReadmeEndpoint → served_path w g = Some p → p ∈ readme_names.
Proof.
  unfold served_path. intros ->. intros [Hin _]%List.find_some.
  by apply list_elem_of_In.
Qed.

Lemma read_request_readme opts :
  get_endpoint (read_request opts) = ReadmeEndpoint →
  contentPath opts = "readme.md".
Proof.
  unfold read_request. simpl.
  destruct (String.eqb_spec (contentPath opts) "readme.md"); done.
Qed.

Lemma upsert_settles opts w :
  (dryrun opts = true →
   ∃ d, cwd opts = Some d
        ∧ path_resolve d (contentPath opts) = path_join d (contentPath opts)) →
  let o := run github (upsert opts) w in
  result o = inr tt
  ∧ text (read_answer github opts (final o)) = text (content opts)
  ∧ length (writes o) =
      (if String.eqb (text (content opts)) (text (read_answer github opts w))
       then 0 else 1)%nat.
Proof.
  intros Hdry o. subst o. rewrite run_upsert.
  destruct (run_read github opts w) as [_ Hw].
  destruct (String.eqb _ _) eqn:Heq; simpl.
  { rewrite github_read_final. apply String.eqb_eq in Heq.
    unfold writes in *. simpl. by rewrite Hw. }
  unfold writes in *. simpl. rewrite filter_app, Hw, github_read_final. simpl.
  unfold upload, with_content. simpl.
  destruct (dryrun opts) eqn:Hd.
  - destruct Hdry as (d & Hcwd & Hpath); [done|]. rewrite Hcwd. simpl.
    split; [done|]. split; [|done].
    unfold read_answer. rewrite Hd, Hcwd. simpl.
    rewrite Hpath, lookup_insert_eq. done.
  - clear Hdry. unfold read_answer in *. rewrite Hd in *. simpl in *.
    set (g := read_request opts) in *.
    unfold upload_request. simpl. unfold store_put. simpl.
    destruct (store_get w g) as [e|d] eqn:Hget; simpl in *.
    + assert (remote w !! (owner opts, repo opts, contentPath opts) = None
              ∧ match get_endpoint g with
                | ContentsEndpoint => contentPath opts = get_path g
                | ReadmeEndpoint =>
                    contentPath opts ∈ readme_names
                    ∧ ∀ x, x ∈ readme_names →
                        remote w !! (get_owner g, get_repo g, x) = None
                end) as [Hnone Hcase].
      { pose proof (store_get_missing w g e Hget) as Hm.
        destruct (get_endpoint g) eqn:Hep; [|done].
        rewrite (read_request_readme opts Hep). split; [|done].
        by apply Hm. }
      unfold or_string. rewrite Hnone. simpl. split; [done|]. split; [|done].
      change (owner opts) with (get_owner g).
      change (repo opts) with (get_repo g).
      rewrite (store_get_after_create w g _ _ Hcase). simpl.
      apply decode_encode.
    + destruct (store_get_found w g d Hget) as [Hserved Hfile].
      assert (or_string (Some (data_path d)) (contentPath opts) = data_path d)
        as ->.
      { unfold or_string. destruct (data_path d) as [|c p] eqn:Hp; [|done].
        destruct (get_endpoint g) eqn:Hep.
        - destruct readme_names_nonempty.
          by apply (served_readme_named w g).
        - unfold served_path in Hserved. rewrite Hep in Hserved.
          by injection Hserved. }
      change (owner opts) with (get_owner g).
      change (repo opts) with (get_repo g).
      rewrite Hfile. simpl. rewrite String.eqb_refl. simpl.
      split; [done|]. split; [|done].
      rewrite (store_get_after_update w g _ _ _ Hserved Hfile). simpl.
      apply decode_encode.
Qed.

(** C1: whenever the desired text equals the text [read] returned, in any
    world, [upsert] writes nothing.  On the content store, two runs of
    [upsert] in a row with the same desired text both succeed; the first
    writes nothing when the stored text is already the desired one and
    exactly once when it is not, and the second writes nothing and leaves
    the store as the first left it. *)
Theorem upsert_idempotent opts w :
  (dryrun opts = true →
   ∃ d, cwd opts = Some d
        ∧ path_resolve d (contentPath opts) = path_join d (contentPath opts)) →
  let current := read_answer github opts w in
  let first := run github (upsert opts) w in
  let second := run github (upsert opts) (final first) in
  (∀ V (h : handler V) o v c,
     result (run h (read o) v) = inr c → text (content o) = text c →
     writes (run h (upsert o) v) = [])
  ∧ (text (content opts) = text current → writes first = [])
  ∧ (text (content opts) ≠ text current → length (writes first) = 1%nat)
  ∧ result first = inr tt
  ∧ result second = inr tt
  ∧ writes second = []
  ∧ (length (writes first ++ writes second) ≤ 1)%nat
  ∧ final second = final first.
Proof.
  intros Hdry current first second.
  destruct (upsert_settles opts w Hdry) as (Hres & Hsettled & Hcount).
  fold first in Hres, Hsettled, Hcount. fold current in Hcount.
  destruct (run_read github opts (final first)) as [Hread _].
  destruct (upsert_unchanged github opts (final first) _ Hread
              (eq_sym Hsettled)) as (Hres2 & Hw2 & Hfin2).
  fold second in Hres2, Hw2, Hfin2.
  split.
  { intros V h o v c Hr Heq. by destruct (upsert_unchanged h o v c Hr Heq) as (_ & ? & _). }
  split.
  { intros Heq%String.eqb_eq. rewrite Heq in Hcount.
    by apply length_zero_iff_nil. }
  split.
  { intros Hne%String.eqb_neq. by rewrite Hne in Hcount. }
  repeat split; try done.
  - rewrite Hw2, app_nil_r, Hcount.
    destruct (String.eqb _ _); simpl; lia.
  - by rewrite Hfin2, github_read_final.
Qed.

End Idempotence.

(** C1 on an empty repository: the README is created by the first run and
    left alone by the second. *)
Lemma upsert_idempotent_witness :
  let opts := Fixture.opts "readme.md" "hello" false in
  let first :=
    run (github (H := Fixture.store)) (upsert (H := Fixture.imports) opts)
        Fixture.empty_world in
  let second :=
    run (github (H := Fixture.store)) (upsert (H := Fixture.imports) opts)
        (final first) in
  (dryrun opts = true →
   ∃ d, cwd opts = Some d
        ∧ path_resolve (Imports := Fixture.imports) d (contentPath opts)
          = path_join (Imports := Fixture.imports) d (contentPath opts))
  ∧ length (writes first) = 1%nat
  ∧ writes second = [].
Proof.
  intros opts first second.
  assert (dryrun opts = true →
          ∃ d, cwd opts = Some d
               ∧ path_resolve (Imports := Fixture.imports) d (contentPath opts)
                 = path_join (Imports := Fixture.imports) d (contentPath opts))
    as Hdry by (intros Hd; discriminate Hd).
  split; [exact Hdry|].
  destruct (upsert_idempotent (H := Fixture.imports) (H0 := Fixture.store)
              (λ s, eq_refl)
              ltac:(apply elem_of_cons; right; apply elem_of_cons; by left)
              ltac:(intros Hin; repeat (apply elem_of_cons in Hin as [Hin|Hin];
                      [discriminate Hin|]); by apply elem_of_nil in Hin)
              opts Fixture.empty_world Hdry)
    as (_ & _ & Hone & _ & _ & Hnone & _).
  split; [|exact Hnone].
  apply Hone. discriminate.
Defined.

(** ** Loading the published badges *)
Section GetBadgesFacts.

Context `{!Imports} {W : Type} (h : handler W).
Implicit Types (a : GetBadgesArgs) (w : W) (b : jsval) (items : list jsval).

Lemma get_set_prop props key v : get_prop (set_prop props key v) key = v.
Proof.
  induction props as [|[k x] props IH]; simpl.
  - by rewrite String.eqb_refl.
  - destruct (String.eqb k key) eqn:E; simpl; by rewrite E.
Qed.

(** The errors of the normalization are type errors, which the catch
    block does not throw again. *)
Lemma addMissingTiers_error items e :
  addMissingTiers items = inl e → e = TypeError.
Proof.
  revert e. induction items as [|b items IH]; intros e; simpl; [done|].
  destruct (addMissingTier b) as [e'|b'] eqn:Hb.
  - intros [= <-]. unfold addMissingTier in Hb.
    destruct b; simpl in Hb; try congruence;
      destruct (is_undefined _); congruence.
  - destruct (addMissingTiers items) as [e'|items']; [|done].
    intros [= <-]. by apply IH.
Qed.

Lemma normalizeBadges_error v s e :
  normalizeBadges v s = inl e → e = TypeError.
Proof.
  unfold normalizeBadges. destruct v; simpl; try congruence.
  destruct (addMissingTiers items) as [e'|items'] eqn:Hi; [|done].
  intros [= <-]. by apply addMissingTiers_error in Hi.
Qed.

Lemma run_lift {A} (r : error + A) w :
  run h (lift r) w = mkOutcome r w [].
Proof. by destruct r. Qed.

(** The catch block around any body: an error of the body is thrown again
    when [rethrown] says so and turned into the empty list otherwise. *)
Lemma run_getBadges_catch (body : prog jsval) w :
  result (run h (try_catch body getBadges_catch) w) =
    match result (run h body w) with
    | inr v => inr v
    | inl e => if rethrown e then inl e else inr (JArray [] [])
    end.
Proof.
  rewrite run_try_catch. destruct (result (run h body w)) as [e|v]; [|done].
  unfold getBadges_catch. by destruct (rethrown e).
Qed.

(** What [getBadges] returns, from what [read] returned. *)
Lemma run_getBadges a w :
  let c := read_answer h (badges_read_opts a) w in
  result (run h (getBadges a) w) =
    match parse_json (text c) with
    | inl _ => inr (JArray [] [])
    | inr v =>
        match normalizeBadges v (sha c) with
        | inl _ => inr (JArray [] [])
        | inr v' => inr v'
        end
    end.
Proof.
  intros c. unfold getBadges. rewrite run_getBadges_catch.
  rewrite run_bind. destruct (run_read h (badges_read_opts a) w) as [-> _].
  fold c. simpl. rewrite run_bind, run_lift. simpl.
  unfold parse_json. destruct (JSON_parse (text c)) as [v|]; simpl; [|done].
  rewrite run_lift. simpl.
  destruct (normalizeBadges v (sha c)) as [e|v'] eqn:Hn; simpl; [|done].
  by rewrite (normalizeBadges_error _ _ _ Hn).
Qed.

(** C6, as the code has it: [read] turns every failure of the remote read
    into the empty string, which is no JSON text, so [getBadges] answers
    the empty list for status 404 and for every other failure alike; no
    failure of the fetch reaches the caller. *)
Theorem getBadges_swallows_fetch_failure a w e :
  JSON_parse EmptyString = None →
  gb_dryrun a ≠ Some true →
  (h (OctokitGet (read_request (badges_read_opts a))) w).1 = inl e →
  result (run h (getBadges a) w) = inr (JArray [] []).
Proof.
  intros Hparse Hdry Hfail. rewrite run_getBadges.
  unfold read_answer.
  assert (dryrun (badges_read_opts a) = false) as ->.
  { simpl. destruct (gb_dryrun a) as [[]|]; done. }
  rewrite Hfail. simpl. unfold parse_json. by rewrite Hparse.
Qed.

(** C9: when the text [read] returned is not JSON, [getBadges] returns the
    empty list.  Its catch block, around any body, throws an error again
    exactly when it is a request error whose response status is not 404,
    and answers the empty list for every other error. *)
Theorem getBadges_unparseable a w :
  JSON_parse (text (read_answer h (badges_read_opts a) w)) = None →
  result (run h (getBadges a) w) = inr (JArray [] [])
  ∧ (∀ (body : prog jsval) v e,
       result (run h body v) = inl e →
       result (run h (try_catch body getBadges_catch) v)
       = if rethrown e then inl e else inr (JArray [] []))
  ∧ (∀ e, rethrown e = true ↔ ∃ status, e = RequestError status ∧ status ≠ Some 404).
Proof.
  intros Hparse. split; [|split].
  - rewrite run_getBadges. simpl. unfold parse_json. by rewrite Hparse.
  - intros body v e He. by rewrite run_getBadges_catch, He.
  - intros e. split.
    + destruct e as [status| | |]; simpl; try done.
      intros Hre. exists status. split; [done|].
      intros ->. done.
    + intros (status & -> & Hne). simpl.
      destruct status as [[|p|p]|]; try done.
      destruct (decide (Z.pos p = 404)) as [Heq|Hneq]; [congruence|].
      repeat (destruct p as [p|p|]; try done).
Qed.

End GetBadgesFacts.

(** ** The tier default *)
Section TierFacts.

Implicit Types (b : jsval) (items : list jsval).

(** One badge: an absent tier becomes 0, a present one is kept, and a
    second pass changes nothing. *)
Lemma addMissingTier_object b :
  is_object b = true →
  ∃ b', addMissingTier b = inr b'
        ∧ is_object b' = true
        ∧ (read_prop b "tier" = inr JUndefined →
           read_prop b' "tier" = inr (JNumber 0))
        ∧ (read_prop b "tier" ≠ inr JUndefined → b' = b)
        ∧ addMissingTier b' = inr b'.
Proof.
  unfold addMissingTier.
  destruct b as [| | | | |items props|props]; try done; intros _; simpl.
  all: destruct (get_prop props "tier") eqn:Ht; simpl.
  all: eexists; (split; [done|]); simpl; rewrite ?get_set_prop, ?Ht; simpl.
  all: repeat split; try done; try (intros Hne; by destruct Hne).
Qed.

Lemma addMissingTiers_objects items :
  Forall (λ b, is_object b = true) items →
  ∃ items',
    addMissingTiers items = inr items'
    ∧ length items' = length items
    ∧ (∀ (i : nat) b, items !! i = Some b →
         ∃ b', items' !! i = Some b'
               ∧ (read_prop b "tier" = inr JUndefined →
                  read_prop b' "tier" = inr (JNumber 0))
               ∧ (read_prop b "tier" ≠ inr JUndefined → b' = b))
    ∧ addMissingTiers items' = inr items'.
Proof.
  induction 1 as [|b items Hb _ IH]; simpl.
  - exists []. repeat split; try done.
  - destruct (addMissingTier_object b Hb) as (b' & -> & _ & Habs & Hpres & Hagain).
    destruct IH as (items' & -> & Hlen & Hitems & Hidem).
    exists (b' :: items'). simpl. rewrite Hagain, Hidem, Hlen.
    repeat split; try done.
    intros [|i] x; simpl.
    + intros [= <-]. by exists b'.
    + apply Hitems.
Qed.

End TierFacts.

Section LoadFacts.

Context `{!Imports} {W : Type} (h : handler W).

(** C8: when the stored manifest is an array of objects, [getBadges]
    returns the array with, at each place, the stored badge itself if it
    had a tier and the badge with tier 0 if it had none; normalizing the
    returned list once more yields the same list. *)
Theorem getBadges_defaults_tier a w items props :
  let c := read_answer h (badges_read_opts a) w in
  JSON_parse (text c) = Some (JArray items props) →
  Forall (λ b, is_object b = true) items →
  ∃ items',
    result (run h (getBadges a) w)
    = inr (JArray items' (set_prop props "sha" (js_of_string (sha c))))
    ∧ length items' = length items
    ∧ (∀ (i : nat) b, items !! i = Some b →
         ∃ b', items' !! i = Some b'
               ∧ (read_prop b "tier" = inr JUndefined →
                  read_prop b' "tier" = inr (JNumber 0))
               ∧ (read_prop b "tier" ≠ inr JUndefined → b' = b))
    ∧ addMissingTiers items' = inr items'.
Proof.
  intros c Hparse Hobj.
  destruct (addMissingTiers_objects items Hobj)
    as (items' & Hnorm & Hlen & Hitems & Hidem).
  exists items'. split; [|done].
  rewrite run_getBadges. fold c. unfold parse_json. rewrite Hparse.
  unfold normalizeBadges. simpl. by rewrite Hnorm.
Qed.

End LoadFacts.

(** ** The snapshot loader *)
Section SnapshotFacts.

Context `{!Imports}.

Lemma owner_repo_bare r user :
  ¬ occurs "/" r → owner_repo (Some r) user = (Some r, None).
Proof.
  intros Hno. unfold owner_repo, split_limit.
  by rewrite (split_no_separator _ _ Hno).
Qed.

(** Without a truthy owner and a truthy repo, [getSnapshot] is [getData]
    and nothing more: the same calls, the same final state, and the empty
    list of published badges next to the data. *)
Lemma getSnapshot_without_repo o {W} (h : handler W) w :
  truthy (n_owner o) && truthy (n_repo o) = false →
  trace (run h (getSnapshot o) w) = trace (run h (getData o) w)
  ∧ final (run h (getSnapshot o) w) = final (run h (getData o) w)
  ∧ result (run h (getSnapshot o) w) =
      match result (run h (getData o) w) with
      | inl e => inl e
      | inr d => inr (mkSnapshot d (JArray [] []))
      end.
Proof.
  intros Hfalsy. unfold getSnapshot. rewrite Hfalsy, run_bind.
  destruct (result (run h (getData o) w)); simpl; [done|].
  by rewrite app_nil_r.
Qed.

(** C10: when the repo option, from the arguments or from the environment,
    is a string without a slash, and the user is given or the positional
    arguments are there to take it from, [normalizeOpts] returns options
    whose owner is that string and whose repo is undefined; on them
    [getSnapshot], with any provider and in any world, issues the calls of
    [getData] and no other, and returns the empty list of published badges
    next to the data [getData] returned. *)
Theorem normalizeOpts_bare_repo argv env r :
  or_default (Update.repo argv) (Update.GITHUB_REPO env) = Some r →
  r ≠ EmptyString →
  ¬ occurs "/" r →
  is_Some (Update.user argv) ∨ is_Some (Update.positional argv) →
  ∃ o,
    normalizeOpts argv env = inr o
    ∧ n_owner o = Some r
    ∧ n_repo o = None
    ∧ ∀ W (h : handler W) w,
        trace (run h (getSnapshot o) w) = trace (run h (getData o) w)
        ∧ final (run h (getSnapshot o) w) = final (run h (getData o) w)
        ∧ result (run h (getSnapshot o) w) =
            match result (run h (getData o) w) with
            | inl e => inl e
            | inr d => inr (mkSnapshot d (JArray [] []))
            end.
Proof.
  intros Hrepo _ Hno Huser. unfold normalizeOpts. rewrite Hrepo.
  assert (∃ user, default_user argv env = inr user) as [user ->].
  { unfold default_user. destruct (Update.user argv) as [u|]; [by eexists|].
    destruct Huser as [[? [=]]|[args Hargs]]. rewrite Hargs. by eexists. }
  rewrite (owner_repo_bare r user Hno).
  eexists. split; [done|]. simpl. split; [done|]. split; [done|].
  intros W h w. apply getSnapshot_without_repo. simpl. apply andb_false_r.
Qed.

End SnapshotFacts.

(** ** The theorems on concrete inputs *)

(** C5 on a page whose stored text differs from the desired one. *)
Lemma upsert_write_carries_read_token_witness :
  let opts := Fixture.opts "my-badges/a.md" "new" false in
  let h := Fixture.serving "old" in
  let c := mkContent "old" (Some "abc") (Some "my-badges/a.md") in
  result (run h (read (H := Fixture.imports) opts) tt) = inr c
  ∧ text (content opts) ≠ text c
  ∧ writes (run h (upsert (H := Fixture.imports) opts) tt) =
      [OctokitPut
         (mkPut (Some "t0ken") (Some "octocat") (Some "octocat")
                "my-badges/a.md" "chore: my-badges/a.md updated"
                "bot" "bot@example.org" "b64:new" (Some "abc"))].
Proof.
  intros opts h c.
  assert (result (run h (read (H := Fixture.imports) opts) tt) = inr c)
    as Hread by reflexivity.
  assert (text (content opts) ≠ text c) as Hne by discriminate.
  split; [exact Hread|]. split; [exact Hne|].
  exact (upsert_write_carries_read_token (H := Fixture.imports) h opts tt c
           Hread Hne).
Defined.

(** C6 on a remote read that fails with status 500. *)
Lemma getBadges_swallows_fetch_failure_witness :
  (Fixture.failing 500
     (OctokitGet (read_request
        (badges_read_opts (H := Fixture.imports) Fixture.args))) tt).1
  = inl (RequestError (Some 500))
  ∧ result (run (Fixture.failing 500)
              (getBadges (H := Fixture.imports) Fixture.args) tt)
    = inr (JArray [] []).
Proof.
  split; [reflexivity|].
  apply (getBadges_swallows_fetch_failure (H := Fixture.imports)
           (Fixture.failing 500) Fixture.args tt (RequestError (Some 500))).
  - reflexivity.
  - discriminate.
  - reflexivity.
Defined.

(** C8 on a manifest with one badge that has no tier. *)
Lemma getBadges_defaults_tier_witness :
  JSON_parse (Imports := Fixture.imports)
    (text (read_answer (H := Fixture.imports)
             (Fixture.serving Fixture.manifest_text)
             (badges_read_opts (H := Fixture.imports) Fixture.args) tt))
  = Some Fixture.manifest_value
  ∧ ∃ items',
      result (run (Fixture.serving Fixture.manifest_text)
                (getBadges (H := Fixture.imports) Fixture.args) tt)
      = inr (JArray items' [("sha", JString "abc")])
      ∧ addMissingTiers items' = inr items'.
Proof.
  split; [reflexivity|].
  destruct (getBadges_defaults_tier (H := Fixture.imports)
              (Fixture.serving Fixture.manifest_text) Fixture.args tt
              [JObject [("id", JString "stars-100")]] [])
    as (items' & Hres & _ & _ & Hidem).
  - reflexivity.
  - repeat constructor.
  - exists items'. split; [exact Hres | exact Hidem].
Defined.

(** C9 on a manifest whose text is not JSON. *)
Lemma getBadges_unparseable_witness :
  JSON_parse (Imports := Fixture.imports)
    (text (read_answer (H := Fixture.imports) (Fixture.serving "{oops")
             (badges_read_opts (H := Fixture.imports) Fixture.args) tt))
  = None
  ∧ result (run (Fixture.serving "{oops")
              (getBadges (H := Fixture.imports) Fixture.args) tt)
    = inr (JArray [] []).
Proof.
  split; [reflexivity|].
  apply (getBadges_unparseable (H := Fixture.imports)
           (Fixture.serving "{oops") Fixture.args tt).
  reflexivity.
Defined.

(** C10 on the arguments [--repo octocat --user octocat]. *)
Lemma normalizeOpts_bare_repo_witness :
  let argv :=
    Update.mkArgv None (Some "octocat") (Some "octocat") (Some []) None None
                  None None None None None None None in
  let env := Update.mkEnv None None None in
  ¬ occurs "/" "octocat"
  ∧ ∃ o,
      normalizeOpts (H := Fixture.imports) argv env = inr o
      ∧ n_owner o = Some "octocat"
      ∧ n_repo o = None.
Proof.
  intros argv env.
  assert (¬ occurs "/" "octocat") as Hno
    by (apply indexOf_absent; reflexivity).
  split; [exact Hno|].
  destruct (normalizeOpts_bare_repo (H := Fixture.imports) argv env "octocat")
    as (o & Ho & Howner & Hrepo & _).
  - reflexivity.
  - discriminate.
  - exact Hno.
  - left. by eexists.
  - exists o. split; [exact Ho|]. split; [exact Howner | exact Hrepo].
Defined.

(** * Further properties *)

(** ** First occurrences *)
Section OccurrenceFacts.

Implicit Types (s p a b : string) (n k j : nat).

Lemma indexOf_from_lower s p i :
  indexOf_from s p i = -1 ∨ i ≤ indexOf_from s p i.
Proof.
  revert i; induction s as [|c s IH]; intros i; simpl.
  - destruct (startsWith p EmptyString); lia.
  - destruct (startsWith p (String c s)); [lia|].
    destruct (IH (i + 1)); lia.
Qed.

Lemma indexOf_from_first s p i k :
  0 ≤ i → indexOf_from s p i = i + Z.of_nat k →
  ∀ j, (j < k)%nat → startsWith p (str_drop j s) = false.
Proof.
  revert i k; induction s as [|c s IH]; intros i k Hi; simpl.
  - destruct (startsWith p EmptyString) eqn:E; intros Hr j Hj; [lia|lia].
  - destruct (startsWith p (String c s)) eqn:E; intros Hr j Hj; [lia|].
    destruct k as [|k]; [lia|].
    destruct j as [|j]; simpl; [done|].
    apply (IH (i + 1) k); [lia | lia | lia].
Qed.

(** [indexOf] answers the first position at which the pattern starts. *)
Lemma indexOf_first s p k :
  indexOf s p = Z.of_nat k ↔
  startsWith p (str_drop k s) = true
  ∧ ∀ j, (j < k)%nat → startsWith p (str_drop j s) = false.
Proof.
  split.
  - intros Hr. split.
    + destruct (indexOf_from_found s p 0 _ Hr) as (k' & Hk' & Hsw); [lia|lia|].
      by replace k with k' by lia.
    + apply (indexOf_from_first s p 0 k); [lia | unfold indexOf in Hr; lia].
  - intros [Hat Hbefore].
    destruct (indexOf_present s p) as (k' & Hr & Hsw & _).
    { apply occurs_position. by exists k. }
    destruct (Nat.lt_trichotomy k k') as [Hlt|[->|Hgt]]; [|done|].
    + pose proof (indexOf_from_first s p 0 k' ltac:(lia)
                    ltac:(unfold indexOf in Hr; lia) k Hlt). congruence.
    + rewrite (Hbefore k' Hgt) in Hsw. done.
Qed.

Lemma str_drop_app_le a b k :
  (k ≤ String.length a)%nat → str_drop k (a +:+ b) = str_drop k a +:+ b.
Proof.
  revert a; induction k as [|k IH]; intros a Hk; [done|].
  destruct a as [|c a]; simpl in Hk; [lia|].
  rewrite app_cons_str. simpl. apply IH. lia.
Qed.

Lemma startsWith_app_le p a b :
  (String.length p ≤ String.length a)%nat →
  startsWith p (a +:+ b) = startsWith p a.
Proof.
  revert a; induction p as [|x p IH]; intros a Hp; [done|].
  destruct a as [|y a]; simpl in Hp; [lia|].
  rewrite app_cons_str. simpl. destruct (ascii_dec x y); [|done].
  apply IH. lia.
Qed.

(** Whether the pattern starts at [k] is decided by the code units up to
    [k + length p]. *)
Lemma startsWith_window p a b k :
  (k + String.length p ≤ String.length a)%nat →
  startsWith p (str_drop k (a +:+ b)) = startsWith p (str_drop k a).
Proof.
  intros Hk. rewrite str_drop_app_le by lia.
  apply startsWith_app_le. rewrite length_str_drop. lia.
Qed.

Lemma occurs_app p s a b : occurs p s → occurs p (a +:+ s +:+ b).
Proof.
  intros (x & y & ->). exists (a +:+ x), (y +:+ b).
  by rewrite !app_assoc_str.
Qed.

Lemma occurs_join sep x xs : x ∈ xs → occurs x (join sep xs).
Proof.
  induction xs as [|y xs IH]; [by intros ?%elem_of_nil|].
  intros [->|Hin]%elem_of_cons; simpl.
  - destruct xs; [by exists EmptyString, EmptyString; rewrite app_empty_r|].
    by exists EmptyString, (sep +:+ join sep (s :: xs)).
  - destruct xs as [|z xs]; [by apply elem_of_nil in Hin|].
    destruct (IH Hin) as (a & b & Hab). exists (y +:+ sep +:+ a), b.
    rewrite Hab. by rewrite !app_assoc_str.
Qed.

Lemma get_app_r a b k :
  String.get (String.length a + k) (a +:+ b) = String.get k b.
Proof.
  induction a as [|c a IH]; [done|]. rewrite app_cons_str. simpl. apply IH.
Qed.

End OccurrenceFacts.

(** ** The README templater, further *)
Section TemplaterMore.

Context `{!Imports}.
Implicit Types (readme pre mid post : string) (badges : list Badge) (size : Size).

(** The rewritten document in terms of the first positions of the two
    markers. *)
Lemma generateReadme_at readme badges size :
  occurs startString readme → occurs endString readme →
  ∃ start end_ : nat,
    indexOf readme startString = Z.of_nat start
    ∧ (∀ j, (j < start)%nat → startsWith startString (str_drop j readme) = false)
    ∧ (∃ t, str_drop start readme = startString +:+ t)
    ∧ String.length (str_take start readme) = start
    ∧ generateReadme readme badges size =
        str_take start readme
        +:+ managedSection badges size (needToAddNewLine readme (Z.of_nat end_))
        +:+ str_drop (end_ + String.length endString) readme.
Proof.
  intros (start & Hs & Hsw & Hsl)%indexOf_present
         (end_ & He & Hew & Hel)%indexOf_present.
  exists start, end_. split; [done|]. split.
  { by apply indexOf_first. }
  split; [by apply startsWith_inv|]. split; [apply length_str_take; lia|].
  apply generateReadme_located; [done | done | lia | done].
Qed.

(** X1: After the rewrite the start marker is first found where it was first
    found before, and the end marker still occurs: the next run finds the
    managed section again, at the same place. *)
Theorem generateReadme_keeps_markers readme badges size :
  occurs startString readme →
  occurs endString readme →
  indexOf (generateReadme readme badges size) startString
  = indexOf readme startString
  ∧ occurs endString (generateReadme readme badges size).
Proof.
  intros Hs He.
  destruct (generateReadme_at readme badges size Hs He)
    as (start & end_ & Hstart & Hfirst & [t Ht] & Hlen & ->).
  set (pre := str_take start readme) in *.
  set (post := str_drop (end_ + String.length endString) readme).
  split.
  - rewrite Hstart. apply indexOf_first. unfold managedSection.
    rewrite !app_assoc_str. split.
    + rewrite <- Hlen at 1. rewrite str_drop_app. apply startsWith_app.
    + intros j Hj. rewrite <- (Hfirst j Hj).
      rewrite <- (str_take_drop start readme) at 2. fold pre. rewrite Ht.
      rewrite <- !(app_assoc_str pre startString).
      rewrite (startsWith_window startString (pre +:+ startString) t j)
        by (rewrite length_app_str, Hlen; lia).
      apply startsWith_window. rewrite length_app_str, Hlen. lia.
  - unfold managedSection. rewrite !app_assoc_str.
    rewrite <- !(app_assoc_str _ _ (endString +:+ _)).
    apply occurs_app. exists EmptyString, EmptyString.
    by rewrite app_empty_r.
Qed.

(** X2: What stood between the markers leaves no trace: for a document
    [pre S mid E post] whose first markers are the ones shown, the result
    is [pre], the managed section and [post], whatever [mid] is; the
    newline after the section is decided by the second code unit of
    [post]. *)
Theorem generateReadme_drops_old_section pre mid post badges size :
  let readme :=
    pre +:+ startString +:+ mid +:+ endString +:+ post in
  indexOf readme startString = len pre →
  indexOf readme endString = len pre + len startString + len mid →
  generateReadme readme badges size =
    pre
    +:+ managedSection badges size (negb (is_newline (String.get 1 post)))
    +:+ post.
Proof.
  intros readme Hs He.
  set (end_ := (String.length pre + String.length startString
                + String.length mid)%nat).
  assert (readme = (pre +:+ startString +:+ mid +:+ endString) +:+ post)
    as Hsplit by (unfold readme; by rewrite !app_assoc_str).
  assert (String.length (pre +:+ startString +:+ mid +:+ endString)
          = (end_ + String.length endString)%nat) as Hlen.
  { rewrite !length_app_str. unfold end_. lia. }
  rewrite (generateReadme_located readme badges size (String.length pre) end_).
  - unfold readme at 1. rewrite str_take_app.
    rewrite Hsplit at 2. rewrite <- Hlen, str_drop_app.
    do 3 f_equal. unfold needToAddNewLine, charAt.
    replace (Z.of_nat end_ + len endString + 1)
      with (Z.of_nat (String.length (pre +:+ startString +:+ mid +:+ endString) + 1))
      by (rewrite Hlen; unfold len; lia).
    rewrite (proj2 (Z.ltb_ge _ 0)) by lia.
    by rewrite Nat2Z.id, Hsplit, get_app_r.
  - done.
  - rewrite He. unfold len, end_. lia.
  - unfold readme. rewrite length_app_str. lia.
  - rewrite Hsplit, length_app_str, Hlen. lia.
Qed.

(** X3: With both markers in the document, the link of every badge of the
    list occurs in the result. *)
Theorem generateReadme_shows_every_badge readme badges size badge :
  occurs startString readme →
  occurs endString readme →
  badge ∈ badges →
  occurs (badgeHtml size badge) (generateReadme readme badges size).
Proof.
  intros Hs He Hin.
  destruct (generateReadme_at readme badges size Hs He)
    as (start & end_ & _ & _ & _ & _ & ->).
  apply occurs_app. unfold managedSection.
  rewrite <- (app_assoc_str (startString +:+ nl) sectionHeader).
  apply occurs_app, (occurs_join nl).
  apply list_elem_of_fmap. by exists badge.
Qed.

End TemplaterMore.

(** ** The synchronizer, further *)
Section SynchronizerMore.

Context `{!Imports} {W : Type} (h : handler W).
Implicit Types (opts : UpsertOpts) (w : W).

Lemma trace_read opts w :
  trace (run h (read opts) w) =
    if dryrun opts then
      match cwd opts with
      | None => []
      | Some d => [FsReadFile (path_resolve d (contentPath opts))]
      end
    else [OctokitGet (read_request opts)].
Proof.
  unfold read. destruct (dryrun opts); simpl.
  - destruct (cwd opts) as [d|]; simpl; [|done].
    by destruct (h (FsReadFile _) w) as [[e|s] w'].
  - by destruct (h (OctokitGet _) w) as [[e|d] w'].
Qed.

Lemma run_upload opts w :
  run h (upload opts) w =
    if dryrun opts then
      match cwd opts with
      | None => mkOutcome (inl TypeError) w []
      | Some d =>
          let c := WriteFile (path_join d (contentPath opts))
                             (text (content opts)) in
          mkOutcome (h c w).1 (h c w).2 [c]
      end
    else
      let c := OctokitPut (upload_request opts) in
      mkOutcome (h c w).1 (h c w).2 [c].
Proof.
  unfold upload. destruct (dryrun opts); simpl.
  - destruct (cwd opts) as [d|]; simpl; [|done].
    by destruct (h (WriteFile _ _) w) as [[e|[]] w'].
  - by destruct (h (OctokitPut _) w) as [[e|[]] w'].
Qed.

(** X4: A dry run of [upsert] issues local calls only and any other run
    remote calls only; in both, the calls are those of the read, at most
    one, followed by the writes, at most one. *)
Theorem upsert_dry_run_isolation opts w :
  let o := run h (upsert opts) w in
  Forall (λ c, is_remote c = negb (dryrun opts)) (trace o)
  ∧ trace o = trace (run h (read opts) w) ++ writes o
  ∧ (length (trace (run h (read opts) w)) ≤ 1)%nat
  ∧ (length (writes o) ≤ 1)%nat.
Proof.
  intros o. subst o. rewrite run_upsert.
  destruct (run_read h opts w) as [_ Hw]. unfold writes in *.
  rewrite trace_read in *.
  destruct (String.eqb _ _); simpl.
  - rewrite Hw, app_nil_r.
    destruct (dryrun opts); [destruct (cwd opts)|]; simpl;
      repeat split; repeat constructor.
  - rewrite filter_app, Hw, run_upload. simpl.
    destruct (dryrun opts); [destruct (cwd opts)|]; simpl;
      repeat split; repeat constructor.
Qed.

(** X5: A write that fails makes [upsert] fail with the error of the write:
    unlike a failed read, it reaches the caller.  A dry run without a
    working directory fails with a [TypeError] before it writes. *)
Theorem upsert_write_failure_propagates opts w e :
  let c := read_answer h opts w in
  let w1 := final (run h (read opts) w) in
  let desired := mkContent (text (content opts)) (sha c) (path c) in
  text (content opts) ≠ text c →
  match dryrun opts, cwd opts with
  | true, None => True
  | true, Some d =>
      (h (WriteFile (path_join d (contentPath opts)) (text (content opts))) w1).1
      = inl e
  | false, _ =>
      (h (OctokitPut (upload_request (with_content opts desired))) w1).1 = inl e
  end →
  result (run h (upsert opts) w) =
    match dryrun opts, cwd opts with
    | true, None => inl TypeError
    | _, _ => inl e
    end.
Proof.
  intros c w1 desired Hne%String.eqb_neq Hfail.
  rewrite run_upsert. fold c. rewrite Hne. simpl. fold w1. fold desired.
  rewrite run_upload. unfold with_content at 1 2. simpl.
  destruct (dryrun opts); [destruct (cwd opts)|]; simpl; try done.
  all: by rewrite Hfail.
Qed.

End SynchronizerMore.

(** ** The synchronizer on the content store, further *)
Section StoreMore.

Context `{!Imports} `{!StoreModel}.
Implicit Types (w : World) (opts : UpsertOpts).

Local Arguments or_string : simpl never.

(** X6: After [upsert] returned, the store holds the desired text: the next
    read at the same path returns it. *)
Theorem upsert_then_read opts w :
  (∀ s, decodeBase64 (encodeBase64 s) = s) →
  "readme.md" ∈ readme_names →
  EmptyString ∉ readme_names →
  (dryrun opts = true →
   ∃ d, cwd opts = Some d
        ∧ path_resolve d (contentPath opts) = path_join d (contentPath opts)) →
  let o := run github (upsert opts) w in
  result o = inr tt
  ∧ ∃ c, result (run github (read opts) (final o)) = inr c
         ∧ text c = text (content opts).
Proof.
  intros Hb64 Hreadme Hnames Hdry o.
  destruct (upsert_settles Hb64 Hreadme Hnames opts w Hdry) as (Hres & Htext & _).
  split; [done|]. eexists. split; [|exact Htext].
  by destruct (run_read github opts (final o)) as [-> _].
Qed.

(** X7: [upsert] touches one file at most: outside a dry run the local disk
    is left alone and so is every file of the remote store but the target;
    in a dry run the remote store is left alone and so is every local file
    but [path.join(cwd, contentPath)]. *)
Theorem upsert_touches_one_file opts w :
  let o := run github (upsert opts) w in
  profile (final o) = profile w
  ∧ if dryrun opts then
      remote (final o) = remote w
      ∧ ∀ f, (∀ d, cwd opts = Some d → f ≠ path_join d (contentPath opts)) →
             disk (final o) !! f = disk w !! f
    else
      disk (final o) = disk w
      ∧ ∀ key, key ≠ upsert_target opts w →
               remote (final o) !! key = remote w !! key.
Proof.
  intros o. subst o. rewrite run_upsert, github_read_final.
  destruct (String.eqb _ _); simpl.
  { destruct (dryrun opts); done. }
  rewrite run_upload. unfold with_content. simpl.
  destruct (dryrun opts) eqn:Hd.
  - destruct (cwd opts) as [d|] eqn:Hc; simpl; [|done].
    split; [done|]. split; [done|]. intros f Hf.
    apply lookup_insert_ne. intros <-. by apply (Hf d).
  - simpl. unfold store_put, upload_request. simpl.
    destruct (token_matches _ _); simpl; [|done].
    split; [done|]. split; [done|]. intros key Hkey.
    apply lookup_insert_ne. intros <-. by apply Hkey.
Qed.

(** X8: The README is overwritten where it lives: when the repository serves
    its README from the file [p], an [upsert] of [readme.md] with a new
    text writes [p], with the revision token of [p], and creates no second
    file. *)
Theorem upsert_readme_in_place opts w p f :
  dryrun opts = false →
  contentPath opts = "readme.md" →
  List.find (held w (owner opts) (repo opts)) readme_names = Some p →
  remote w !! (owner opts, repo opts, p) = Some f →
  p ≠ EmptyString →
  text (content opts) ≠ decodeBase64 (file_content f) →
  let o := run github (upsert opts) w in
  result o = inr tt
  ∧ final o = put_file w (owner opts) (repo opts) p (desired_file opts)
  ∧ ∃ r, writes o = [OctokitPut r]
         ∧ put_path r = p ∧ put_sha r = Some (file_sha f).
Proof.
  intros Hd Hpath Hfind Hf Hp Hne o. subst o.
  rewrite run_upsert, github_read_final.
  destruct (run_read github opts w) as [_ Hw]. unfold writes in *.
  assert (read_answer github opts w
          = mkContent (decodeBase64 (file_content f)) (Some (file_sha f)) (Some p))
    as Hc.
  { unfold read_answer. rewrite Hd. simpl.
    unfold store_get, served_path, read_request. simpl.
    rewrite Hpath. simpl. by rewrite Hfind, Hf. }
  rewrite Hc. simpl. apply String.eqb_neq in Hne. rewrite Hne. simpl.
  rewrite run_upload. unfold with_content. simpl. rewrite Hd. simpl.
  rewrite filter_app, Hw. simpl.
  assert (or_string (Some p) (contentPath opts) = p) as Hor
    by (unfold or_string; by destruct p).
  unfold store_put, upload_request. simpl. rewrite Hor, Hf. simpl.
  rewrite String.eqb_refl. simpl.
  split; [done|]. split; [done|]. eexists. split; [done|]. by simpl.
Qed.

(** What an [upsert] through the contents endpoint does to the store. *)
Lemma upsert_contents_final opts w :
  dryrun opts = false →
  contentPath opts ≠ "readme.md" →
  let stored := remote w !! (owner opts, repo opts, contentPath opts) in
  let current :=
    match stored with
    | Some f => decodeBase64 (file_content f)
    | None => EmptyString
    end in
  final (run github (upsert opts) w) =
    if String.eqb (text (content opts)) current then w
    else put_file w (owner opts) (repo opts) (contentPath opts)
                  (desired_file opts).
Proof.
  intros Hd Hpath stored current. subst stored current.
  rewrite run_upsert, github_read_final.
  apply String.eqb_neq in Hpath.
  assert (read_answer github opts w =
          match remote w !! (owner opts, repo opts, contentPath opts) with
          | Some f => mkContent (decodeBase64 (file_content f))
                                (Some (file_sha f)) (Some (contentPath opts))
          | None => plain EmptyString
          end) as Hc.
  { unfold read_answer. rewrite Hd. simpl.
    unfold store_get, served_path, read_request. simpl. rewrite Hpath. simpl.
    by destruct (remote w !! _). }
  rewrite Hc.
  destruct (remote w !! (owner opts, repo opts, contentPath opts)) as [f|] eqn:Hf;
    simpl.
  - destruct (String.eqb (text (content opts)) (decodeBase64 (file_content f)));
      simpl; [done|].
    rewrite run_upload. unfold with_content. simpl. rewrite Hd. simpl.
    assert (or_string (Some (contentPath opts)) (contentPath opts)
            = contentPath opts) as Hor
      by (unfold or_string; by destruct (contentPath opts)).
    unfold store_put, upload_request. simpl. rewrite Hor, Hf. simpl.
    by rewrite String.eqb_refl.
  - destruct (String.eqb (text (content opts)) EmptyString); simpl; [done|].
    rewrite run_upload. unfold with_content. simpl. rewrite Hd. simpl.
    unfold store_put, upload_request. simpl. unfold or_string. simpl.
    by rewrite Hf.
Qed.

(** X9: Two upserts of different files through the contents endpoint leave
    the same store in either order. *)
Theorem upserts_commute opts1 opts2 w :
  dryrun opts1 = false → dryrun opts2 = false →
  contentPath opts1 ≠ "readme.md" → contentPath opts2 ≠ "readme.md" →
  (owner opts1, repo opts1, contentPath opts1)
  ≠ (owner opts2, repo opts2, contentPath opts2) →
  final (run github (upsert opts2) (final (run github (upsert opts1) w)))
  = final (run github (upsert opts1) (final (run github (upsert opts2) w))).
Proof.
  intros Hd1 Hd2 Hp1 Hp2 Hkeys.
  assert ((owner opts2, repo opts2, contentPath opts2)
          ≠ (owner opts1, repo opts1, contentPath opts1)) as Hkeys'
    by (intros Heq; by apply Hkeys).
  rewrite !upsert_contents_final by done.
  remember (String.eqb (text (content opts1))
              match remote w !! (owner opts1, repo opts1, contentPath opts1) with
              | Some f => decodeBase64 (file_content f)
              | None => EmptyString
              end) as b1 eqn:E1.
  remember (String.eqb (text (content opts2))
              match remote w !! (owner opts2, repo opts2, contentPath opts2) with
              | Some f => decodeBase64 (file_content f)
              | None => EmptyString
              end) as b2 eqn:E2.
  destruct b1, b2; simpl;
    rewrite ?(lookup_insert_ne _ _ _ _ Hkeys), ?(lookup_insert_ne _ _ _ _ Hkeys');
    rewrite <- ?E1, <- ?E2; try done.
  unfold put_file. simpl. f_equal. by apply insert_insert_ne.
Qed.

End StoreMore.

(** ** Loading the published badges, further *)
Section GetBadgesMore.

Context `{!Imports} {W : Type} (h : handler W).
Implicit Types (a : GetBadgesArgs) (w : W) (b : jsval) (items : list jsval).

Lemma trace_getBadges a w :
  trace (run h (getBadges a) w) = trace (run h (read (badges_read_opts a)) w).
Proof.
  unfold getBadges. rewrite run_try_catch, run_bind.
  destruct (run_read h (badges_read_opts a) w) as [-> _]. simpl.
  rewrite run_bind, run_lift. simpl.
  destruct (parse_json _) as [e|v]; simpl.
  - unfold getBadges_catch. destruct (rethrown e); simpl; by rewrite !app_nil_r.
  - rewrite run_lift. simpl. destruct (normalizeBadges _ _) as [e|v']; simpl.
    + unfold getBadges_catch. destruct (rethrown e); simpl; by rewrite !app_nil_r.
    + by rewrite !app_nil_r.
Qed.

Lemma getBadges_returns a w : ∃ v, result (run h (getBadges a) w) = inr v.
Proof.
  rewrite run_getBadges. simpl.
  destruct (parse_json _) as [e|v]; [by eexists|].
  destruct (normalizeBadges _ _); by eexists.
Qed.

(** X10: [getBadges] never fails, whatever the world answers and whatever the
    manifest holds; it issues the one call of its read, or none, and
    writes nothing. *)
Theorem getBadges_never_throws a w :
  (∃ v, result (run h (getBadges a) w) = inr v)
  ∧ (length (trace (run h (getBadges a) w)) ≤ 1)%nat
  ∧ writes (run h (getBadges a) w) = [].
Proof.
  split; [|split].
  - apply getBadges_returns.
  - rewrite trace_getBadges, trace_read.
    destruct (dryrun _); [destruct (cwd _)|]; simpl; lia.
  - unfold writes. rewrite trace_getBadges.
    by destruct (run_read h (badges_read_opts a) w) as [_ ?].
Qed.

(** X11: A manifest that is JSON but not an array (an object, a string, a
    number, a boolean, null) is answered with the empty list. *)
Theorem getBadges_not_an_array a w v :
  JSON_parse (text (read_answer h (badges_read_opts a) w)) = Some v →
  (∀ items props, v ≠ JArray items props) →
  result (run h (getBadges a) w) = inr (JArray [] []).
Proof.
  intros Hparse Hshape. rewrite run_getBadges. simpl.
  unfold parse_json. rewrite Hparse.
  destruct v as [| | | | |items props|props]; simpl; try done.
  by destruct (Hshape items props).
Qed.

Lemma addMissingTier_non_object b :
  is_object b = false → addMissingTier b = inl TypeError.
Proof. by destruct b. Qed.

Lemma addMissingTiers_non_object items :
  Exists (λ b, is_object b = false) items →
  addMissingTiers items = inl TypeError.
Proof.
  induction 1 as [b items Hb|b items _ IH]; simpl.
  - by rewrite (addMissingTier_non_object b Hb).
  - destruct (addMissingTier b) as [e|b'] eqn:Hb.
    + f_equal. apply (addMissingTiers_error [b]). simpl. by rewrite Hb.
    + by rewrite IH.
Qed.

(** X12: One entry of the stored array that is not an object (a null, a
    number, a string) makes [getBadges] answer the empty list: the other
    badges of the manifest are dropped with it. *)
Theorem getBadges_one_bad_entry a w items props :
  JSON_parse (text (read_answer h (badges_read_opts a) w))
  = Some (JArray items props) →
  Exists (λ b, is_object b = false) items →
  result (run h (getBadges a) w) = inr (JArray [] []).
Proof.
  intros Hparse Hbad. rewrite run_getBadges. simpl.
  unfold parse_json. rewrite Hparse. unfold normalizeBadges. simpl.
  by rewrite (addMissingTiers_non_object items Hbad).
Qed.

Lemma get_set_prop_ne props key k v :
  k ≠ key → get_prop (set_prop props key v) k = get_prop props k.
Proof.
  intros Hne. induction props as [|[k' x] props IH]; simpl.
  - by rewrite (proj2 (String.eqb_neq key k)).
  - destruct (String.eqb k' key) eqn:E; simpl.
    + apply String.eqb_eq in E as ->.
      by rewrite (proj2 (String.eqb_neq key k)).
    + by rewrite IH.
Qed.

Lemma addMissingTier_keeps b b' key :
  addMissingTier b = inr b' → key ≠ "tier" →
  read_prop b' key = read_prop b key.
Proof.
  unfold addMissingTier. intros Hb Hkey.
  destruct b as [| | | | |items props|props]; simpl in Hb; try done.
  all: destruct (is_undefined _); injection Hb as <-; simpl; [|done].
  all: by rewrite get_set_prop_ne.
Qed.

Lemma addMissingTiers_keeps items items' :
  addMissingTiers items = inr items' →
  length items' = length items
  ∧ ∀ (i : nat) b b', items !! i = Some b → items' !! i = Some b' →
      ∀ key, key ≠ "tier" → read_prop b' key = read_prop b key.
Proof.
  revert items'. induction items as [|x items IH]; intros items'; simpl.
  - intros [= <-]. split; [done|]. by intros i b b' ?.
  - destruct (addMissingTier x) as [e|x'] eqn:Hx; [done|].
    destruct (addMissingTiers items) as [e|rest] eqn:Hrest; [done|].
    intros [= <-]. destruct (IH rest eq_refl) as [Hlen Hkeep].
    split; [simpl; by rewrite Hlen|].
    intros [|i] b b'; simpl.
    + intros [= <-] [= <-] key Hkey. by apply addMissingTier_keeps.
    + apply Hkeep.
Qed.

(** X13: The tier default changes nothing else: the returned list has the
    badges of the stored array in their order, and every property of a
    badge other than [tier] reads as it was stored. *)
Theorem getBadges_keeps_other_properties a w items props :
  JSON_parse (text (read_answer h (badges_read_opts a) w))
  = Some (JArray items props) →
  Forall (λ b, is_object b = true) items →
  ∃ items' props',
    result (run h (getBadges a) w) = inr (JArray items' props')
    ∧ length items' = length items
    ∧ ∀ (i : nat) b b', items !! i = Some b → items' !! i = Some b' →
        ∀ key, key ≠ "tier" → read_prop b' key = read_prop b key.
Proof.
  intros Hparse Hobj.
  destruct (addMissingTiers_objects items Hobj) as (items' & Hnorm & _).
  destruct (addMissingTiers_keeps items items' Hnorm) as [Hlen Hkeep].
  exists items'. eexists. split; [|done].
  rewrite run_getBadges. simpl. unfold parse_json. rewrite Hparse.
  unfold normalizeBadges. simpl. by rewrite Hnorm.
Qed.

End GetBadgesMore.

(** ** Splitting at a separator *)
Section SplitFacts.

Implicit Types (s o r : string) (sep : ascii).

Lemma split_nonempty sep s : split sep s ≠ [].
Proof.
  destruct s as [|c s]; simpl; [done|].
  destruct (ascii_dec c sep); [done|]. by destruct (split sep s).
Qed.

Lemma not_occurs_cons sep c s :
  ¬ occurs (String sep EmptyString) (String c s) →
  c ≠ sep ∧ ¬ occurs (String sep EmptyString) s.
Proof.
  intros Hno. split.
  - intros ->. apply Hno. by exists EmptyString, s.
  - intros (a & b & ->). apply Hno. by exists (String c a), b.
Qed.

Lemma split_cons sep o rest :
  ¬ occurs (String sep EmptyString) o →
  split sep (o +:+ String sep rest) = o :: split sep rest.
Proof.
  induction o as [|c o IH]; intros Hno.
  - rewrite app_nil_str. simpl. by destruct (ascii_dec sep sep).
  - apply not_occurs_cons in Hno as [Hc Hno].
    rewrite app_cons_str. simpl. destruct (ascii_dec c sep); [done|].
    by rewrite (IH Hno).
Qed.

Lemma join_split sep s : join (String sep EmptyString) (split sep s) = s.
Proof.
  induction s as [|c s IH]; simpl; [done|].
  pose proof (split_nonempty sep s) as Hne.
  destruct (ascii_dec c sep) as [->|Hc].
  - destruct (split sep s) as [|piece rest]; [done|].
    simpl in *. by rewrite IH.
  - destruct (split sep s) as [|piece rest]; [done|]. simpl in *.
    destruct rest as [|next rest]; [by rewrite IH|].
    rewrite app_cons_str. by rewrite IH.
Qed.

Lemma not_occurs_empty sep : ¬ occurs (String sep EmptyString) EmptyString.
Proof.
  intros (a & b & Heq). apply (f_equal String.length) in Heq.
  rewrite !length_app_str in Heq. simpl in Heq. lia.
Qed.

Lemma split_pieces sep s :
  Forall (λ piece, ¬ occurs (String sep EmptyString) piece) (split sep s).
Proof.
  induction s as [|c s IH]; simpl.
  - constructor; [apply not_occurs_empty | constructor].
  - destruct (ascii_dec c sep) as [->|Hc].
    + constructor; [apply not_occurs_empty | done].
    + destruct (split sep s) as [|piece rest]; simpl.
      * constructor; [|constructor]. intros (a & b & Heq).
        destruct a as [|x a]; [by injection Heq as ->|].
        rewrite app_cons_str in Heq. injection Heq as _ Heq.
        by apply (not_occurs_empty sep); exists a, b.
      * inversion IH as [|?? Hpiece Hrest]; subst.
        constructor; [|done]. intros (a & b & Heq).
        destruct a as [|x a]; [by injection Heq as ->|].
        rewrite app_cons_str in Heq. injection Heq as _ Heq.
        apply Hpiece. by exists a, b.
Qed.

End SplitFacts.

(** ** The options, further *)
Section OptionsMore.

Context `{!Imports}.
Implicit Types (argv : Update.Argv) (env : Update.Env) (o : NormalizedOpts).

Lemma normalizeOpts_inr argv env user :
  default_user argv env = inr user →
  ∃ o, normalizeOpts argv env = inr o
       ∧ n_user o = user
       ∧ (n_owner o, n_repo o)
         = owner_repo (or_default (Update.repo argv) (Update.GITHUB_REPO env)) user
       ∧ n_pickBadges o = split_ids (Update.pick argv)
       ∧ n_omitBadges o = split_ids (Update.omit argv).
Proof.
  intros Huser. unfold normalizeOpts. rewrite Huser.
  destruct (owner_repo _ user) as [owner repo] eqn:Hor.
  eexists. split; [done|]. by simpl.
Qed.

Lemma default_user_inr argv env :
  is_Some (Update.user argv) ∨ is_Some (Update.positional argv) →
  ∃ user, default_user argv env = inr user.
Proof.
  unfold default_user. intros Hgiven.
  destruct (Update.user argv) as [u|]; [by eexists|].
  destruct Hgiven as [[? [=]]|[args ->]]. by eexists.
Qed.

(** X14: A repo option [owner/repo] is taken apart at its first slash: the
    owner is what stands before it and the repo what stands between it and
    the next slash, if there is one; what follows a second slash is
    ignored. *)
Theorem normalizeOpts_owner_and_repo argv env owner repo rest :
  or_default (Update.repo argv) (Update.GITHUB_REPO env)
  = Some (owner +:+ "/" +:+ repo +:+ rest) →
  ¬ occurs "/" owner →
  ¬ occurs "/" repo →
  rest = EmptyString ∨ (∃ t, rest = "/" +:+ t) →
  is_Some (Update.user argv) ∨ is_Some (Update.positional argv) →
  ∃ o, normalizeOpts argv env = inr o
       ∧ n_owner o = Some owner
       ∧ n_repo o = Some repo.
Proof.
  intros Hrepo Howner Hname Hrest Hgiven.
  destruct (default_user_inr argv env Hgiven) as [user Huser].
  destruct (normalizeOpts_inr argv env user Huser) as (o & Ho & _ & Hor & _).
  exists o. split; [done|]. rewrite Hrepo in Hor.
  unfold owner_repo, split_limit in Hor.
  change ("/" +:+ repo +:+ rest) with (String "/" (repo +:+ rest)) in Hor.
  rewrite (split_cons _ _ _ Howner) in Hor.
  destruct Hrest as [->|[t ->]].
  - rewrite app_empty_r, (split_no_separator _ _ Hname) in Hor.
    by injection Hor as -> ->.
  - change ("/" +:+ t) with (String "/" t) in Hor.
    rewrite (split_cons _ _ _ Hname) in Hor.
    by injection Hor as -> ->.
Qed.

(** X15: Without a repo option, in the arguments and in the environment, the
    owner and the repo are both the user: the user of the arguments, or
    else the first positional argument if it is a non-empty string, or
    else the user of the environment. *)
Theorem normalizeOpts_defaults_to_user argv env o :
  or_default (Update.repo argv) (Update.GITHUB_REPO env) = None →
  normalizeOpts argv env = inr o →
  n_owner o = n_user o ∧ n_repo o = n_user o
  ∧ match Update.user argv, Update.positional argv with
    | Some u, _ => n_user o = Some u
    | None, Some args =>
        n_user o = or_else (args !! 0%nat) (Update.GITHUB_USER env)
    | None, None => False
    end.
Proof.
  intros Hrepo Ho. destruct (default_user argv env) as [e|user] eqn:Huser.
  { unfold normalizeOpts in Ho. by rewrite Huser in Ho. }
  destruct (normalizeOpts_inr argv env user Huser) as (o' & Ho' & Hu & Hor & _).
  rewrite Ho in Ho'. injection Ho' as <-.
  rewrite Hrepo in Hor. simpl in Hor. injection Hor as -> ->.
  rewrite Hu. split; [done|]. split; [done|].
  unfold default_user in Huser.
  destruct (Update.user argv); [by injection Huser|].
  destruct (Update.positional argv); [by injection Huser | done].
Qed.

(** X16: [normalizeOpts] fails exactly when the arguments hold neither a user
    nor the list of positional arguments, and then with a [TypeError]:
    the environment is not asked for the user in that case. *)
Theorem normalizeOpts_fails_iff argv env e :
  normalizeOpts argv env = inl e ↔
  Update.user argv = None ∧ Update.positional argv = None ∧ e = TypeError.
Proof.
  unfold normalizeOpts, default_user.
  destruct (Update.user argv) as [u|]; [|destruct (Update.positional argv)].
  - destruct (owner_repo _ _). split; [done | by intros (? & _)].
  - destruct (owner_repo _ _). split; [done | by intros (_ & ? & _)].
  - split; [by intros [= <-] | by intros (_ & _ & ->)].
Qed.

(** X17: The pick list and the omit list are cut at the commas and nothing
    else: no id holds a comma, and the ids joined with commas give the
    option back.  An option that is absent or empty gives the empty list. *)
Theorem normalizeOpts_id_lists argv env o :
  normalizeOpts argv env = inr o →
  (∀ ids, Update.pick argv = Some ids → ids ≠ EmptyString →
     join "," (n_pickBadges o) = ids
     ∧ Forall (λ id, ¬ occurs "," id) (n_pickBadges o))
  ∧ (∀ ids, Update.omit argv = Some ids → ids ≠ EmptyString →
       join "," (n_omitBadges o) = ids
       ∧ Forall (λ id, ¬ occurs "," id) (n_omitBadges o))
  ∧ (truthy (Update.pick argv) = false → n_pickBadges o = [])
  ∧ (truthy (Update.omit argv) = false → n_omitBadges o = []).
Proof.
  intros Ho. destruct (default_user argv env) as [e|user] eqn:Huser.
  { unfold normalizeOpts in Ho. by rewrite Huser in Ho. }
  destruct (normalizeOpts_inr argv env user Huser)
    as (o' & Ho' & _ & _ & Hpick & Homit).
  rewrite Ho in Ho'. injection Ho' as <-. rewrite Hpick, Homit.
  assert (∀ opt ids, opt = Some ids → ids ≠ EmptyString →
            join "," (split_ids opt) = ids
            ∧ Forall (λ id, ¬ occurs "," id) (split_ids opt)) as Hcut.
  { intros opt ids -> Hne. unfold split_ids.
    destruct ids as [|c ids]; [done|]. simpl truthy. cbv iota.
    split; [apply join_split | apply split_pieces]. }
  assert (∀ opt, truthy opt = false → split_ids opt = []) as Hnone.
  { intros [ids|] Hf; unfold split_ids; [by rewrite Hf | done]. }
  split; [intros ids Hids Hne; by apply Hcut|].
  split; [intros ids Hids Hne; by apply Hcut|].
  split; apply Hnone.
Qed.

End OptionsMore.

(** ** The snapshot loader, further *)
Section SnapshotMore.

Context `{!Imports} {W : Type} (h : handler W).
Implicit Types (o : NormalizedOpts) (w : W).

(** X18: Without a data path and without a user, [getData] fails with
    [Specify username] before it calls anything. *)
Theorem getData_requires_user o w :
  n_dataPath o = EmptyString →
  truthy (n_user o) = false →
  run h (getData o) w = mkOutcome (inl (Error "Specify username")) w [].
Proof.
  intros Hpath Huser. unfold getData. rewrite Hpath. simpl.
  by destruct (n_user o) as [[|c u]|].
Qed.

(** X19: With a data path, [getData] stays on the local disk and writes
    nothing, whatever the provider is: it asks whether the file exists and,
    if so, reads it; a file that does not exist gives [Data file not
    found], and a file that is not JSON a [SyntaxError]. *)
Theorem getData_from_file o w :
  n_dataPath o ≠ EmptyString →
  let cwd := default process_cwd (n_cwd o) in
  let exists_ := FsExistsSync (n_dataPath o) in
  let read_ := FsReadFile (path_resolve cwd (n_dataPath o)) in
  let out := run h (getData o) w in
  match (h exists_ w).1 with
  | inl e => result out = inl e ∧ trace out = [exists_]
  | inr false =>
      result out = inl (Error "Data file not found") ∧ trace out = [exists_]
  | inr true =>
      trace out = [exists_; read_]
      ∧ result out =
          match (h read_ (h exists_ w).2).1 with
          | inl e => inl e
          | inr s => parse_json s
          end
  end.
Proof.
  intros Hpath%String.eqb_neq cwd exists_ read_ out. subst out.
  unfold getData. rewrite Hpath. simpl. fold cwd. fold exists_.
  destruct (h exists_ w) as [[e|[]] w1]; simpl; try done.
  subst read_. destruct (h (FsReadFile _) w1) as [[e|s] w2]; simpl; [done|].
  unfold prog_bind. simpl. by destruct (parse_json s).
Qed.

(** X20: With a user and no data path, [getData] asks the provider and then
    writes what it got to [data/<user>.json] under the working directory;
    it returns the data when that write went through and fails with the
    error of the write when it did not. *)
Theorem getData_caches_the_data o w user data :
  n_dataPath o = EmptyString →
  n_user o = Some user →
  user ≠ EmptyString →
  let asked := run h (provider_getData (n_provider o) user (n_token o)) w in
  result asked = inr data →
  let cwd := default process_cwd (n_cwd o) in
  let write_ :=
    WriteFile (path_join cwd ("data/" +:+ user +:+ ".json"))
              (JSON_stringify data) in
  let out := run h (getData o) w in
  trace out = trace asked ++ [write_]
  ∧ result out =
      match (h write_ (final asked)).1 with
      | inl e => inl e
      | inr _ => inr data
      end.
Proof.
  intros Hpath Huser Hne asked Hdata cwd write_ out. subst out.
  unfold getData. rewrite Hpath, Huser. simpl.
  destruct user as [|c user]; [done|]. fold cwd.
  rewrite run_bind. fold asked. rewrite Hdata. simpl. fold write_.
  destruct (h write_ (final asked)) as [[e|[]] w1]; simpl; done.
Qed.

(** X22: [getSnapshot] obtains the data first: when [getData] fails,
    [getSnapshot] fails with the same error after the same calls, and the
    provider is not asked for the published badges. *)
Theorem getSnapshot_fails_with_getData o w e :
  result (run h (getData o) w) = inl e →
  result (run h (getSnapshot o) w) = inl e
  ∧ trace (run h (getSnapshot o) w) = trace (run h (getData o) w)
  ∧ final (run h (getSnapshot o) w) = final (run h (getData o) w).
Proof.
  intros He. unfold getSnapshot. rewrite run_bind, He. done.
Qed.

(** X23: With the GitHub provider, a truthy owner and a truthy repo, the
    snapshot is the data and the list [getBadges] returns for that owner
    and repo, read after the data with one request; once the data is
    there, loading the badges cannot make [getSnapshot] fail. *)
Theorem getSnapshot_with_github o w data :
  n_provider o = githubProvider →
  truthy (n_owner o) && truthy (n_repo o) = true →
  result (run h (getData o) w) = inr data →
  let args :=
    mkGetBadges (n_user o) (n_token o) (n_owner o) (n_repo o) None None in
  let request :=
    mkGet (if String.eqb MY_BADGES_JSON_PATH "readme.md"
           then ReadmeEndpoint else ContentsEndpoint)
          (n_token o) (n_owner o) (n_repo o) MY_BADGES_JSON_PATH in
  ∃ badges,
    result (run h (getBadges args) (final (run h (getData o) w))) = inr badges
    ∧ result (run h (getSnapshot o) w) = inr (mkSnapshot data badges)
    ∧ trace (run h (getSnapshot o) w)
      = trace (run h (getData o) w) ++ [OctokitGet request].
Proof.
  intros Hprov Hboth Hdata args request.
  destruct (getBadges_returns h args (final (run h (getData o) w)))
    as [badges Hbadges].
  exists badges. split; [done|].
  assert (trace (run h (getBadges args) (final (run h (getData o) w)))
          = [OctokitGet request]) as Htrace.
  { rewrite trace_getBadges, trace_read. simpl. unfold read_request. simpl.
    apply andb_true_iff in Hboth as [Howner Hrepo]. subst request.
    destruct (n_owner o) as [x|]; [|done]. by destruct (n_repo o). }
  unfold getSnapshot. rewrite run_bind, Hdata, Hboth, Hprov.
  fold args. rewrite run_bind.
  change (provider_getBadges githubProvider args) with (getBadges args).
  set (loaded := run h (getBadges args) (final (run h (getData o) w))) in *.
  rewrite Hbadges. simpl. by rewrite app_nil_r, Htrace.
Qed.

End SnapshotMore.

(** ** The uploads of updateBadges *)
Section UploadsFacts.

Context `{!Imports}.
Implicit Types (badges : list Badge) (b : Badge) (m : gmap string string).




(** The text under a path after the loop over the badges: the page of
    the last badge with that path, or what was there before. *)
Lemma add_pages_lookup m badges k :
  add_pages m badges !! k =
    match last (filter (λ b, badgePath b = k) badges) with
    | Some b => Some (badgePage b)
    | None => m !! k
    end.
Proof.
  induction badges as [|b badges IH] using rev_ind; [done|].
  unfold add_pages in *. rewrite foldl_snoc, filter_app, filter_cons, filter_nil.
  destruct (decide (badgePath b = k)) as [<-|Hne].
  - by rewrite last_snoc, lookup_insert_eq.
  - by rewrite app_nil_r, lookup_insert_ne.
Qed.


Lemma last_filter_elem badges k b :
  last (filter (λ b, badgePath b = k) badges) = Some b →
  b ∈ badges ∧ badgePath b = k.
Proof.
  intros Hin%last_Some_elem_of.
  by apply list_elem_of_filter in Hin as [? ?].
Qed.



(** X25: Nothing else is uploaded: a path of the record is the manifest path,
    [readme.md] or the page path of a badge of the list. *)
Theorem uploads_nothing_else manifest readme badges k :
  is_Some (uploads manifest readme badges !! k) →
  k = MY_BADGES_JSON_PATH ∨ k = "readme.md"
  ∨ ∃ b, b ∈ badges ∧ k = badgePath b.
Proof.
  unfold uploads. rewrite add_pages_lookup.
  destruct (last _) as [b|] eqn:Hlast.
  - intros _. apply last_filter_elem in Hlast as [Hin Hpath].
    right. right. by exists b.
  - destruct (decide (k = "readme.md")) as [->|Hk]; [by right; left|].
    rewrite lookup_insert_ne by done.
    destruct (decide (k = MY_BADGES_JSON_PATH)) as [->|Hk']; [by left|].
    rewrite lookup_singleton_ne by done. by intros [? [=]].
Qed.

End UploadsFacts.

Section UpdateBadgesFacts.

Context `{!Imports} {W : Type} (h : handler W).

Lemma read_answer_content opts c w :
  read_answer h (with_content opts c) w = read_answer h opts w.
Proof. done. Qed.


End UpdateBadgesFacts.

(** ** The further properties on concrete inputs *)

Lemma generateReadme_keeps_markers_witness :
  let readme :=
    "# Hi" +:+ nl +:+ startString +:+ "stale" +:+ endString +:+ nl +:+ "bye" in
  let result := generateReadme (H := Fixture.imports) readme [] (SizeNumber 64) in
  occurs startString readme ∧ occurs endString readme
  ∧ indexOf result startString = indexOf readme startString
  ∧ occurs endString result.
Proof.
  intros readme result.
  assert (occurs startString readme) as Hs
    by (exists ("# Hi" +:+ nl), ("stale" +:+ endString +:+ nl +:+ "bye"); reflexivity).
  assert (occurs endString readme) as He
    by (exists ("# Hi" +:+ nl +:+ startString +:+ "stale"), (nl +:+ "bye"); reflexivity).
  split; [exact Hs|]. split; [exact He|].
  exact (generateReadme_keeps_markers (H := Fixture.imports)
           readme [] (SizeNumber 64) Hs He).
Defined.

Lemma generateReadme_drops_old_section_witness :
  let pre := "# Hi" +:+ nl in
  let post := nl +:+ "bye" in
  let readme := pre +:+ startString +:+ "stale" +:+ endString +:+ post in
  indexOf readme startString = len pre
  ∧ indexOf readme endString = len pre + len startString + len "stale"
  ∧ generateReadme (H := Fixture.imports) readme [] (SizeNumber 64)
    = pre +:+ managedSection (H := Fixture.imports) [] (SizeNumber 64) true
      +:+ post.
Proof.
  intros pre post readme.
  assert (indexOf readme startString = len pre) as Hs by reflexivity.
  assert (indexOf readme endString = len pre + len startString + len "stale")
    as He by reflexivity.
  split; [exact Hs|]. split; [exact He|].
  exact (generateReadme_drops_old_section (H := Fixture.imports)
           pre "stale" post [] (SizeNumber 64) Hs He).
Defined.

Lemma generateReadme_shows_every_badge_witness :
  let readme := startString +:+ endString in
  let badge := Scenario.badge "stars-100" in
  occurs startString readme ∧ occurs endString readme ∧ badge ∈ [badge]
  ∧ occurs (badgeHtml (H := Fixture.imports) (SizeNumber 64) badge)
           (generateReadme (H := Fixture.imports) readme [badge] (SizeNumber 64)).
Proof.
  intros readme badge.
  assert (occurs startString readme) as Hs
    by (exists EmptyString, endString; reflexivity).
  assert (occurs endString readme) as He
    by (exists startString, EmptyString; reflexivity).
  assert (badge ∈ [badge]) as Hin by (apply list_elem_of_singleton; reflexivity).
  split; [exact Hs|]. split; [exact He|]. split; [exact Hin|].
  exact (generateReadme_shows_every_badge (H := Fixture.imports)
           readme [badge] (SizeNumber 64) badge Hs He Hin).
Defined.

Lemma upsert_write_failure_propagates_witness :
  let opts := Fixture.opts "my-badges/a.md" "new" false in
  let h := Scenario.rejecting "old" in
  text (content opts) ≠ text (read_answer (H := Fixture.imports) h opts tt)
  ∧ result (run h (upsert (H := Fixture.imports) opts) tt)
    = inl (RequestError (Some 409)).
Proof.
  intros opts h.
  assert (text (content opts) ≠ text (read_answer (H := Fixture.imports) h opts tt))
    as Hne by discriminate.
  split; [exact Hne|].
  exact (upsert_write_failure_propagates (H := Fixture.imports) h opts tt
           (RequestError (Some 409)) Hne eq_refl).
Defined.

Lemma upsert_then_read_witness :
  let opts := Fixture.opts "readme.md" "hello" false in
  let o := run (github (H := Fixture.store))
               (upsert (H := Fixture.imports) opts) Fixture.empty_world in
  result o = inr tt
  ∧ ∃ c, result (run (github (H := Fixture.store))
                     (read (H := Fixture.imports) opts) (final o)) = inr c
         ∧ text c = "hello".
Proof.
  intros opts o.
  apply (upsert_then_read (H := Fixture.imports) (H0 := Fixture.store)
           opts Fixture.empty_world).
  - intros s. reflexivity.
  - apply elem_of_cons. right. apply elem_of_cons. by left.
  - intros Hin. repeat (apply elem_of_cons in Hin as [Hin|Hin];
                          [discriminate Hin|]).
    by apply elem_of_nil in Hin.
  - intros Hd. discriminate Hd.
Defined.

Lemma upsert_readme_in_place_witness :
  let opts := Fixture.opts "readme.md" "hello" false in
  let w := Scenario.with_readme in
  let o := run (github (H := Fixture.store))
               (upsert (H := Fixture.imports) opts) w in
  List.find (held w (owner opts) (repo opts)) (readme_names (StoreModel := Fixture.store))
  = Some "README.md"
  ∧ result o = inr tt
  ∧ ∃ r, writes o = [OctokitPut r]
         ∧ put_path r = "README.md" ∧ put_sha r = Some "sha:b64:old".
Proof.
  intros opts w o.
  assert (List.find (held w (owner opts) (repo opts))
            (readme_names (StoreModel := Fixture.store)) = Some "README.md")
    as Hfind by (vm_compute; reflexivity).
  split; [exact Hfind|].
  destruct (upsert_readme_in_place (H := Fixture.imports) (H0 := Fixture.store)
              opts w "README.md" (mkFile "b64:old" "sha:b64:old"))
    as (Hres & _ & Hwrite).
  - reflexivity.
  - reflexivity.
  - exact Hfind.
  - vm_compute. reflexivity.
  - discriminate.
  - discriminate.
  - split; [exact Hres | exact Hwrite].
Defined.

Lemma upserts_commute_witness :
  let first := Fixture.opts "my-badges/a.md" "A" false in
  let second := Fixture.opts "my-badges/b.md" "B" false in
  let step opts w :=
    final (run (github (H := Fixture.store))
               (upsert (H := Fixture.imports) opts) w) in
  contentPath first ≠ contentPath second
  ∧ step second (step first Fixture.empty_world)
    = step first (step second Fixture.empty_world).
Proof.
  intros first second step.
  split; [discriminate|].
  apply (upserts_commute (H := Fixture.imports) (H0 := Fixture.store)
           first second Fixture.empty_world).
  - reflexivity.
  - reflexivity.
  - discriminate.
  - discriminate.
  - discriminate.
Defined.

Lemma getBadges_not_an_array_witness :
  let h := Fixture.serving "{}" in
  JSON_parse (Imports := Scenario.imports)
    (text (read_answer (H := Scenario.imports) h
             (badges_read_opts (H := Scenario.imports) Fixture.args) tt))
  = Some (JObject [])
  ∧ result (run h (getBadges (H := Scenario.imports) Fixture.args) tt)
    = inr (JArray [] []).
Proof.
  intros h. split; [reflexivity|].
  apply (getBadges_not_an_array (H := Scenario.imports) h Fixture.args tt
           (JObject [])).
  - reflexivity.
  - discriminate.
Defined.

Lemma getBadges_one_bad_entry_witness :
  let h := Fixture.serving "[null]" in
  JSON_parse (Imports := Scenario.imports)
    (text (read_answer (H := Scenario.imports) h
             (badges_read_opts (H := Scenario.imports) Fixture.args) tt))
  = Some (JArray [JNull] [])
  ∧ result (run h (getBadges (H := Scenario.imports) Fixture.args) tt)
    = inr (JArray [] []).
Proof.
  intros h. split; [reflexivity|].
  apply (getBadges_one_bad_entry (H := Scenario.imports) h Fixture.args tt
           [JNull] []).
  - reflexivity.
  - apply Exists_cons_hd. reflexivity.
Defined.

Lemma getBadges_keeps_other_properties_witness :
  let h := Fixture.serving Fixture.manifest_text in
  ∃ items' props',
    result (run h (getBadges (H := Fixture.imports) Fixture.args) tt)
    = inr (JArray items' props')
    ∧ length items' = 1%nat
    ∧ ∀ b', items' !! 0%nat = Some b' →
            read_prop b' "id" = inr (JString "stars-100").
Proof.
  intros h.
  destruct (getBadges_keeps_other_properties (H := Fixture.imports) h
              Fixture.args tt [JObject [("id", JString "stars-100")]] [])
    as (items' & props' & Hres & Hlen & Hkeep).
  - reflexivity.
  - repeat constructor.
  - exists items', props'. split; [exact Hres|]. split; [exact Hlen|].
    intros b' Hb'.
    apply (Hkeep 0%nat (JObject [("id", JString "stars-100")]) b' eq_refl Hb').
    discriminate.
Defined.

Lemma normalizeOpts_owner_and_repo_witness :
  let argv :=
    Update.mkArgv None (Some "octocat/badges") (Some "octocat") None None None
                  None None None None None None None in
  let env := Update.mkEnv None None None in
  ¬ occurs "/" "octocat" ∧ ¬ occurs "/" "badges"
  ∧ ∃ o, normalizeOpts (H := Fixture.imports) argv env = inr o
         ∧ n_owner o = Some "octocat"
         ∧ n_repo o = Some "badges".
Proof.
  intros argv env.
  assert (¬ occurs "/" "octocat") as Howner
    by (apply indexOf_absent; reflexivity).
  assert (¬ occurs "/" "badges") as Hrepo
    by (apply indexOf_absent; reflexivity).
  split; [exact Howner|]. split; [exact Hrepo|].
  apply (normalizeOpts_owner_and_repo (H := Fixture.imports) argv env
           "octocat" "badges" EmptyString).
  - reflexivity.
  - exact Howner.
  - exact Hrepo.
  - left. reflexivity.
  - left. by eexists.
Defined.

Lemma normalizeOpts_defaults_to_user_witness :
  let argv :=
    Update.mkArgv None None None (Some ["octocat"]) None None
                  None None None None None None None in
  let env := Update.mkEnv None None None in
  ∃ o, normalizeOpts (H := Fixture.imports) argv env = inr o
       ∧ n_owner o = Some "octocat"
       ∧ n_repo o = Some "octocat".
Proof.
  intros argv env. eexists. split; [reflexivity|].
  match goal with
  | |- n_owner ?o = _ ∧ _ =>
      destruct (normalizeOpts_defaults_to_user (H := Fixture.imports)
                  argv env o eq_refl eq_refl) as (Howner & Hrepo & _)
  end.
  split; [exact Howner | exact Hrepo].
Defined.

Lemma normalizeOpts_id_lists_witness :
  let argv :=
    Update.mkArgv None None (Some "octocat") None None None
                  None None None (Some "stars-100,a-commit") None None None in
  let env := Update.mkEnv None None None in
  ∃ o, normalizeOpts (H := Fixture.imports) argv env = inr o
       ∧ n_pickBadges o = ["stars-100"; "a-commit"]
       ∧ join "," (n_pickBadges o) = "stars-100,a-commit"
       ∧ n_omitBadges o = [].
Proof.
  intros argv env. eexists. split; [reflexivity|].
  match goal with
  | |- n_pickBadges ?o = _ ∧ _ =>
      destruct (normalizeOpts_id_lists (H := Fixture.imports) argv env o eq_refl)
        as (Hpick & _ & _ & Homit)
  end.
  split; [reflexivity|]. split.
  - apply (Hpick "stars-100,a-commit" eq_refl). discriminate.
  - apply Homit. reflexivity.
Defined.

Lemma getData_requires_user_witness :
  let o := Scenario.options EmptyString None in
  run (Fixture.failing 500) (getData (H := Fixture.imports) o) tt
  = mkOutcome (inl (Error "Specify username")) tt [].
Proof.
  intros o.
  exact (getData_requires_user (H := Fixture.imports) (Fixture.failing 500) o tt
           eq_refl eq_refl).
Defined.

Lemma getData_from_file_witness :
  let o := Scenario.options "data.json" None in
  let out := run (Fixture.serving "[]") (getData (H := Fixture.imports) o) tt in
  n_dataPath o ≠ EmptyString
  ∧ trace out = [FsExistsSync "data.json"; FsReadFile "/work/data.json"]
  ∧ result out = inr (JArray [] []).
Proof.
  intros o out.
  assert (n_dataPath o ≠ EmptyString) as Hne by discriminate.
  split; [exact Hne|].
  exact (getData_from_file (H := Fixture.imports) (Fixture.serving "[]") o tt Hne).
Defined.

Lemma getData_caches_the_data_witness :
  let o := Scenario.options EmptyString (Some "octocat") in
  let out := run (Fixture.serving "[]") (getData (H := Fixture.imports) o) tt in
  trace out
  = [Collect (Some "t0ken") "octocat"; WriteFile "/work/data/octocat.json" "{}"]
  ∧ result out = inr JNull.
Proof.
  intros o out.
  apply (getData_caches_the_data (H := Fixture.imports) (Fixture.serving "[]")
           o tt "octocat" JNull).
  - reflexivity.
  - reflexivity.
  - discriminate.
  - reflexivity.
Defined.

Lemma getSnapshot_fails_with_getData_witness :
  let o := Scenario.options EmptyString None in
  let h := Fixture.serving Fixture.manifest_text in
  result (run h (getData (H := Fixture.imports) o) tt)
  = inl (Error "Specify username")
  ∧ result (run h (getSnapshot (H := Fixture.imports) o) tt)
    = inl (Error "Specify username")
  ∧ trace (run h (getSnapshot (H := Fixture.imports) o) tt) = [].
Proof.
  intros o h.
  assert (result (run h (getData (H := Fixture.imports) o) tt)
          = inl (Error "Specify username")) as Hdata by reflexivity.
  split; [exact Hdata|].
  destruct (getSnapshot_fails_with_getData (H := Fixture.imports) h o tt _ Hdata)
    as (Hres & Htrace & _).
  split; [exact Hres | exact Htrace].
Defined.

Lemma getSnapshot_with_github_witness :
  let o := Scenario.options EmptyString (Some "octocat") in
  let h := Fixture.serving Fixture.manifest_text in
  result (run h (getData (H := Fixture.imports) o) tt) = inr JNull
  ∧ ∃ badges,
      result (run h (getSnapshot (H := Fixture.imports) o) tt)
      = inr (mkSnapshot JNull badges)
      ∧ length (trace (run h (getSnapshot (H := Fixture.imports) o) tt)) = 3%nat.
Proof.
  intros o h.
  assert (result (run h (getData (H := Fixture.imports) o) tt) = inr JNull)
    as Hdata by reflexivity.
  split; [exact Hdata|].
  destruct (getSnapshot_with_github (H := Fixture.imports) h o tt JNull
              eq_refl eq_refl Hdata) as (badges & _ & Hres & Htrace).
  exists badges. split; [exact Hres|]. rewrite Htrace. reflexivity.
Defined.

Lemma uploads_nothing_else_witness :
  let ups :=
    uploads (H := Fixture.imports) "[]" "# Hi" [Scenario.badge "stars-100"] in
  is_Some (ups !! "my-badges/stars-100.md")
  ∧ ("my-badges/stars-100.md" = "my-badges/my-badges.json"
     ∨ "my-badges/stars-100.md" = "readme.md"
     ∨ ∃ b, b ∈ [Scenario.badge "stars-100"]
            ∧ "my-badges/stars-100.md" = badgePath b).
Proof.
  intros ups.
  assert (is_Some (ups !! "my-badges/stars-100.md")) as Hsome
    by (eexists; vm_compute; reflexivity).
  split; [exact Hsome|].
  exact (uploads_nothing_else (H := Fixture.imports) "[]" "# Hi"
           [Scenario.badge "stars-100"] "my-badges/stars-100.md" Hsome).
Defined.


(** ** The data file on the local disk *)
Section DataFileFacts.

Context `{!Imports} `{!StoreModel}.

(** X21: The existence check looks at the data path as given and the read at
    the data path resolved against the working directory.  On the local
    disk, a file that is there under the first name only makes [getData]
    fail with the error of the read, and a file that is there under the
    second name only makes it fail with [Data file not found]. *)
Theorem getData_checks_another_path o w :
  n_dataPath o ≠ EmptyString →
  let file := path_resolve (default process_cwd (n_cwd o)) (n_dataPath o) in
  (is_Some (disk w !! n_dataPath o) → disk w !! file = None →
   result (run github (getData o) w) = inl (Error "ENOENT"))
  ∧ (disk w !! n_dataPath o = None →
     result (run github (getData o) w) = inl (Error "Data file not found")).
Proof.
  intros Hpath%String.eqb_neq file. unfold getData. rewrite Hpath. simpl.
  fold file. split.
  - intros Hthere Hmissing. rewrite (bool_decide_eq_true_2 _ Hthere). simpl.
    by rewrite Hmissing.
  - intros Hmissing.
    rewrite bool_decide_eq_false_2; [done|]. rewrite Hmissing. by intros [? [=]].
Qed.

End DataFileFacts.

Lemma getData_checks_another_path_witness :
  let o := Scenario.options "data.json" None in
  n_dataPath o ≠ EmptyString
  ∧ is_Some (disk Scenario.with_data !! "data.json")
  ∧ disk Scenario.with_data !! "/work/data.json" = None
  ∧ result (run (github (H := Fixture.store)) (getData (H := Fixture.imports) o)
                Scenario.with_data)
    = inl (Error "ENOENT").
Proof.
  intros o.
  assert (n_dataPath o ≠ EmptyString) as Hne by discriminate.
  assert (is_Some (disk Scenario.with_data !! "data.json")) as Hthere
    by (eexists; vm_compute; reflexivity).
  assert (disk Scenario.with_data !! "/work/data.json" = None) as Hmissing
    by (vm_compute; reflexivity).
  split; [exact Hne|]. split; [exact Hthere|]. split; [exact Hmissing|].
  destruct (getData_checks_another_path (H := Fixture.imports)
              (H0 := Fixture.store) o Scenario.with_data Hne) as [Hread _].
  exact (Hread Hthere Hmissing).
Defined.
